(** * Paragraph: the text and inline-format model of src/paragraph.js

    A shallow embedding of the parts of [Paragraph] that own data: the text
    (a JavaScript string), the list of inline formats and the operations that
    change them.  The DOM mirror ([this.dom]) is no field of the model: it is
    only written, and what [updateInnerDom_] writes into it is a function of
    the text, the placeholder text and the formats.

    Conventions of the embedding:
    - JavaScript numbers that are used as indices are integers here ([Z]).
    - A JavaScript string is the list of its code units.
    - [undefined] results are [None]. *)

From Stdlib Require Import ZArith Lia Bool Ascii String List Sorted OrderedTypeEx.
From stdpp Require Import base list strings sorting.
Import ListNotations.
Local Open Scope Z_scope.

(** ** Strings *)

Module JsString.

(** A code unit of a JavaScript string.  Nothing below depends on its width. *)
Definition code_unit : Type := ascii.

Definition t : Type := list code_unit.

Definition of_string (s : string) : t := list_ascii_of_string s.

(** [s.length] *)
Definition length (s : t) : Z := Z.of_nat (List.length s).

(** Argument conversion of [String.prototype.substring]: an integer index is
    clamped to [0 .. s.length]. *)
Definition clamp (s : t) (i : Z) : nat :=
  Z.to_nat (Z.min (Z.max i 0) (length s)).

(** [s.substring(a, b)]: both ends are clamped, and swapped when [a > b]. *)
Definition substring (s : t) (a b : Z) : t :=
  let a' := clamp s a in
  let b' := clamp s b in
  let lo := Nat.min a' b' in
  let hi := Nat.max a' b' in
  take (hi - lo)%nat (drop lo s).

(** [s.substring(a)]: the end defaults to [s.length]. *)
Definition substringFrom (s : t) (a : Z) : t :=
  substring s a (length s).

(** [[x, y].join(sep)] for a two-element array of strings. *)
Definition join2 (x y sep : t) : t := x ++ sep ++ y.

End JsString.

(** ** Formats *)

(** An inline format [{type, from, to, attrs}].  [attrs] is optional: a format
    object without the property has [attrs = None]. *)
Record Format : Type := mkFormat {
  type : string;
  from : Z;
  to : Z;
  attrs : option (list (string * string))
}.

Definition setFrom (f : Format) (v : Z) : Format :=
  {| type := type f; from := v; to := to f; attrs := attrs f |}.

Definition setTo (f : Format) (v : Z) : Format :=
  {| type := type f; from := from f; to := v; attrs := attrs f |}.

Definition setAttrs (f : Format) (a : option (list (string * string))) : Format :=
  {| type := type f; from := from f; to := to f; attrs := a |}.

(** Modelled from the spec: [Utils.clone], whose source (utils.js) is not
    given.  The spec has a format as a plain record of values that is owned
    by the list holding it; a copy of a value is the value. *)
Definition clone {A : Type} (x : A) : A := x.
Arguments clone {A} x /.

(** [Paragraph.Types] *)
Inductive ParagraphType : Type :=
| Paragraph_ | MainHeader | SecondaryHeader | ThirdHeader
| Quote | Code | Caption | ListItem.

Record Paragraph : Type := mkParagraph {
  name : string;
  text : JsString.t;
  placeholderText : option JsString.t;
  paragraphType : ParagraphType;
  formats : list Format
}.

Definition withText (p : Paragraph) (t : JsString.t) : Paragraph :=
  {| name := name p; text := t; placeholderText := placeholderText p;
     paragraphType := paragraphType p; formats := formats p |}.

Definition withFormats (p : Paragraph) (fs : list Format) : Paragraph :=
  {| name := name p; text := text p; placeholderText := placeholderText p;
     paragraphType := paragraphType p; formats := fs |}.

(** [setText]: [this.text = text || ''].  The empty string is the only falsy
    string and it is replaced by the empty string. *)
Definition setText (p : Paragraph) (t : JsString.t) : Paragraph :=
  withText p (match t with [] => [] | _ => t end).

(** ** Shifting formats after a splice *)

(** The test that puts index [i] on the [toRemove] list. *)
Definition inShiftedRange (startIndex shift : Z) (f : Format) : bool :=
  (startIndex <=? from f) && (startIndex - shift >=? to f).

(** The two updates of the loop body.  The second test reads [to], which the
    first update does not change. *)
Definition shiftOne (startIndex shift : Z) (f : Format) : Format :=
  let f1 := if from f >=? startIndex then setFrom f (from f + shift) else f in
  if to f1 >? startIndex then setTo f1 (to f1 + shift) else f1.

(** First loop of [shiftFormatsFrom_], from index [i] on: the indices pushed
    on [toRemove] and the updated formats. *)
Fixpoint shiftLoop (startIndex shift : Z) (i : nat) (fs : list Format)
  : list nat * list Format :=
  match fs with
  | [] => ([], [])
  | f :: rest =>
      let r := shiftLoop startIndex shift (S i) rest in
      ((if inShiftedRange startIndex shift f then [i] else []) ++ fst r,
       shiftOne startIndex shift f :: snd r)
  end.

(** Second loop: [this.formats.splice(toRemove[i], 1)] for each recorded index,
    in order, on the array as it is by then.  An index past the end removes
    nothing. *)
Definition spliceAll (toRemove : list nat) (fs : list Format) : list Format :=
  fold_left (fun acc i => delete i acc) toRemove fs.

Definition shiftFormatsFrom_ (startIndex shift : Z) (fs : list Format)
  : list Format :=
  let r := shiftLoop startIndex shift 0 fs in
  spliceAll (fst r) (snd r).

Definition insertCharactersAt (p : Paragraph) (chars : JsString.t) (index : Z)
  : Paragraph :=
  let updatedText :=
    JsString.join2 (JsString.substring (text p) 0 index)
                   (JsString.substringFrom (text p) index) chars in
  let p1 := withFormats p
              (shiftFormatsFrom_ index (JsString.length chars) (formats p)) in
  setText p1 updatedText.

Definition removeCharactersAt (p : Paragraph) (index count : Z) : Paragraph :=
  let updatedText :=
    JsString.join2 (JsString.substring (text p) 0 index)
                   (JsString.substringFrom (text p) (index + count)) [] in
  let p1 := withFormats p (shiftFormatsFrom_ index (-1 * count) (formats p)) in
  setText p1 updatedText.

(** ** Overlap queries *)

(** The condition under which [getFormattedRanges] keeps [this.formats[i]]:
    the entry is not skipped by the [continue], and one of the four
    overlap cases holds. *)
Definition rangeMatches (format e : Format) : bool :=
  negb (from e >? to format) &&
  (   ((from e <? from format) && (to e >=? to format))
   || ((from e >=? from format) && (to e <=? to format))
   || ((to e >? from format) && (to e <=? to format) && (from e <? from format))
   || ((from e >=? from format) && (from e <? to format) && (to e >? to format))).

(** [===] on two [type] strings. *)
Definition sameType (format e : Format) : bool := String.eqb (type e) (type format).

(** The loop of [getFormattedRanges] from index [i] on.  The entries of the
    results are references into [this.formats]; a reference is kept as the
    index the entry has in [this.formats] during the query together with the
    entry's value. *)
Fixpoint matchLoop (format : Format) (i : nat) (fs : list Format)
  : list (nat * Format) * list (nat * Format) :=
  match fs with
  | [] => ([], [])
  | e :: rest =>
      let r := matchLoop format (S i) rest in
      if rangeMatches format e then
        ((i, e) :: fst r,
         if sameType format e then (i, e) :: snd r else snd r)
      else r
  end.

(** [getFormattedRanges] as references.  Without [matchType] all matching
    entries; with it, the matching entries of the type when they are all of
    the type and [undefined] otherwise. *)
Definition getFormattedRefs (fs : list Format) (format : Format) (matchType : bool)
  : option (list (nat * Format)) :=
  let r := matchLoop format 0 fs in
  let matchingFormats := fst r in
  let matchingFormatsWithType := snd r in
  if matchType then
    if (List.length matchingFormatsWithType =? List.length matchingFormats)%nat
    then Some matchingFormatsWithType
    else None
  else Some matchingFormats.

Definition getFormattedRanges (fs : list Format) (format : Format) (matchType : bool)
  : option (list Format) :=
  option_map (map snd) (getFormattedRefs fs format matchType).

(** ** Sorted insertion *)

(** The comparator given to [Array.prototype.sort] in [addNewFormatting].
    [>] and [<] on strings compare code units lexicographically. *)
Definition compareFormats (formatA formatB : Format) : Z :=
  let result := from formatA - from formatB in
  if result =? 0 then
    if String.ltb (type formatB) (type formatA) then 1
    else if String.ltb (type formatA) (type formatB) then -1
    else 0
  else result.

Section Sort.
Context {A : Type} (key : A -> Format).

(** [Array.prototype.sort] is a stable sort; with this comparator (a total
    preorder) every stable sort gives the same array.  Insertion from the
    right is one. *)
Fixpoint sortInsert (x : A) (l : list A) : list A :=
  match l with
  | [] => [x]
  | y :: l' =>
      if compareFormats (key x) (key y) <=? 0 then x :: y :: l'
      else y :: sortInsert x l'
  end.

Definition sortFormats (l : list A) : list A := fold_right sortInsert [] l.
End Sort.

(** [addNewFormatting]: push, then sort. *)
Definition addNewFormatting (fs : list Format) (format : Format) : list Format :=
  sortFormats id (fs ++ [format]).

(** ** Normalization *)

(** The merge test of [normalizeFormats_] between the last entry of
    [newFormats] and [this.formats[i]]. *)
Definition mergesInto (last f : Format) : bool :=
  (to last >? from f) || ((to last =? from f) && String.eqb (type last) (type f)).

(** The loop of [normalizeFormats_]: [last] is the last entry of [newFormats],
    the entries before it are final and are emitted as the loop moves on. *)
Fixpoint normalizeFrom (last : Format) (rest : list Format) : list Format :=
  match rest with
  | [] => [last]
  | f :: rest' =>
      if mergesInto last f then normalizeFrom (setTo last (to f)) rest'
      else last :: normalizeFrom (clone f) rest'
  end.

Definition normalizeFormats_ (fs : list Format) : list Format :=
  match fs with
  | [] => []
  | f :: rest => normalizeFrom (clone f) rest
  end.

(** ** Applying a format *)

(** During the loop of [format] the entries of [this.formats] are either the
    objects that were there when the loop started, known by the index they had
    then, or objects made since ([None]).  The entries of an incoming list are
    taken to be pairwise distinct objects. *)
Definition Entry : Type := option nat * Format.

Definition enterLoop (fs : list Format) : list Entry :=
  imap (fun i f => (Some i, f)) fs.

Definition leaveLoop (es : list Entry) : list Format := map snd es.

(** [this.formats.indexOf(originalExistingFormats[i])], [None] for [-1]. *)
Fixpoint indexOfRef (ref : nat) (es : list Entry) : option nat :=
  match es with
  | [] => None
  | (Some r, _) :: es' =>
      if (r =? ref)%nat then Some O else option_map S (indexOfRef ref es')
  | (None, _) :: es' => option_map S (indexOfRef ref es')
  end.

(** [this.formats[index] = v]; with index [-1] the array is left as it is. *)
Definition assignAt (index : option nat) (v : Format) (es : list Entry) : list Entry :=
  match index with
  | Some i => <[i := (None, v)]> es
  | None => es
  end.

(** [this.formats.splice(index, 1)]; index [-1] counts from the end and removes
    the last entry. *)
Definition spliceAt (index : option nat) (es : list Entry) : list Entry :=
  match index with
  | Some i => delete i es
  | None => removelast es
  end.

Definition addNewEntry (es : list Entry) (format : Format) : list Entry :=
  sortFormats snd (es ++ [(None, format)]).

(** One iteration of the loop of [format], for the reference [r]:
    [existingFormat] is the clone of the entry it refers to. *)
Definition formatStep (format : Format) (clear : bool)
    (es : list Entry) (r : nat * Format) : list Entry :=
  let existingFormat := clone (snd r) in
  let index := indexOfRef (fst r) es in
  match attrs format with
  | Some a => assignAt index (setAttrs existingFormat (Some a)) es
  | None =>
    if (to format =? to existingFormat) && (from format =? from existingFormat) then
      spliceAt index es
    else if (to format =? to existingFormat) ||
            ((to format >? to existingFormat) &&
             (from format <? to existingFormat) && clear) then
      assignAt index (setTo existingFormat (from format)) es
    else if (from format =? from existingFormat) ||
            ((from format <? from existingFormat) &&
             (to format >? from existingFormat) && clear) then
      assignAt index (setFrom existingFormat (to format)) es
    else if (to format <? to existingFormat) && (from format >? from existingFormat) then
      let es1 := spliceAt index es in
      let es2 := addNewEntry es1
        {| type := type existingFormat; from := from existingFormat;
           to := from format; attrs := None |} in
      addNewEntry es2
        {| type := type existingFormat; from := to format;
           to := to existingFormat; attrs := None |}
    else if negb clear then
      assignAt index
        {| type := type existingFormat;
           from := Z.min (from existingFormat) (from format);
           to := Z.max (to existingFormat) (to format);
           attrs := attrs existingFormat |} es
    else spliceAt index es
  end.

Definition formatLoop (format : Format) (clear : bool)
    (fs : list Format) (refs : list (nat * Format)) : list Format :=
  leaveLoop (fold_left (formatStep format clear) refs (enterLoop fs)).

Definition isEmpty {A} (l : option (list A)) : bool :=
  match l with
  | Some (_ :: _) => false
  | _ => true
  end.

(** [format(format, clear)] on the list of formats.  The function calls
    itself; [fuel] bounds the depth of the calls and [None] means the bound
    was reached. *)
Fixpoint format_ (fuel : nat) (fs : list Format) (format : Format) (clear : bool)
  : option (list Format) :=
  match fuel with
  | O => None
  | S fuel' =>
      let format := clone format in
      let originalExistingFormats := getFormattedRefs fs format (negb clear) in
      let after :=
        match originalExistingFormats with
        | Some (r :: refs) => Some (formatLoop format clear fs (r :: refs))
        | _ =>
            let formattedRanges := getFormattedRefs fs format false in
            if isEmpty formattedRanges then Some (addNewFormatting fs format)
            else if negb clear then
              match format_ fuel' fs format true with
              | Some fs1 => format_ fuel' fs1 format false
              | None => None
              end
            else Some fs
        end in
      match after with
      | Some fs' => Some (if negb clear then normalizeFormats_ fs' else fs')
      | None => None
      end
  end.

(** [Paragraph.prototype.format] *)
Definition format (fuel : nat) (p : Paragraph) (f : Format) (clear : bool)
  : option Paragraph :=
  option_map (withFormats p) (format_ fuel (formats p) f clear).

(** [Paragraph.prototype.applyFormats] *)
Fixpoint applyFormats (fuel : nat) (p : Paragraph) (fs : list Format)
  : option Paragraph :=
  match fs with
  | [] => Some p
  | f :: rest =>
      match format fuel p f false with
      | Some p' => applyFormats fuel p' rest
      | None => None
      end
  end.

(** ** Operation descriptors *)

Module Attrs.
(** The attribute bag handed to [getUpdateOps]; [formats] may be absent. *)
Record t : Type := mk { formats : option (list Format) }.
End Attrs.

Module Op.
(** An [updateComponent] payload. *)
Record t : Type := mk {
  op : string;
  component : string;
  cursorOffset : option Z;
  selectRange : option Z;
  formats : option (list Format)
}.
End Op.



(** ** Properties of format lists *)


(** [0 <= from < to <= n] *)
Definition nonEmptyInBounds (n : Z) (f : Format) : Prop :=
  0 <= from f /\ from f < to f /\ to f <= n.


(** The range lies within [[index, index + count)], ends included. *)
Definition withinRegion (index count : Z) (f : Format) : Prop :=
  index <= from f /\ to f <= index + count.



(** Position [p] carries type [t] through [f]. *)
Definition covers (t : string) (p : Z) (f : Format) : Prop :=
  type f = t /\ from f <= p /\ p < to f.

Definition covered (t : string) (p : Z) (fs : list Format) : Prop :=
  Exists (covers t p) fs.

(** [g] may come right after [f]: it starts where [f] ends or later, or it is
    of the type of [f], starts no earlier and ends no earlier. *)
Definition follows (f g : Format) : Prop :=
  to f <= from g \/ (type f = type g /\ from f <= from g /\ to f <= to g).

(** Every entry has [from <= to] and is followed by the next. *)
Fixpoint chained (fs : list Format) : Prop :=
  match fs with
  | [] => True
  | f :: rest =>
      from f <= to f /\
      match rest with
      | [] => True
      | g :: _ => follows f g
      end /\ chained rest
  end.

(** No entry merges into the entry before it. *)
Fixpoint noMerge (fs : list Format) : Prop :=
  match fs with
  | [] => True
  | f :: rest =>
      match rest with
      | [] => True
      | g :: _ => mergesInto f g = false
      end /\ noMerge rest
  end.

(** [a] does not compare greater than [b]. *)
Definition keyLe {A : Type} (key : A -> Format) (a b : A) : Prop :=
  compareFormats (key a) (key b) <= 0.

(** Sorted by [from], then by [type]: no entry compares greater than a later
    one. *)
Definition sortedFormats (fs : list Format) : Prop :=
  StronglySorted (keyLe id) fs.

Fixpoint sortedFormatsb (fs : list Format) : bool :=
  match fs with
  | [] => true
  | a :: rest => forallb (fun b => compareFormats a b <=? 0) rest && sortedFormatsb rest
  end.

(** Half-open intervals [[from, to)] that share a position. *)
Definition intersects (format e : Format) : Prop :=
  from e < to format /\ from format < to e.



(** [e] lies before the range of [format]: it starts before it and ends where
    it starts, or before. *)
Definition endsBefore (format e : Format) : Prop :=
  from e < from format /\ to e <= from format.

(** [e] lies after the range of [format]: it starts where it ends, or after,
    and when it starts where it ends it reaches past it. *)
Definition startsAfter (format e : Format) : Prop :=
  to format <= from e /\ (from e = to format -> to format < to e).

(** ** Length and placeholder *)

(** [getLength] *)
Definition getLength (p : Paragraph) : Z := JsString.length (text p).

(** Truthiness of a value that is a string or [null]: [null] and the empty
    string are falsy. *)
Definition truthy (s : option JsString.t) : bool :=
  match s with
  | Some (_ :: _) => true
  | _ => false
  end.

(** [isPlaceholder]: [!!this.placeholderText && !this.text.length] *)
Definition isPlaceholder (p : Paragraph) : bool :=
  truthy (placeholderText p) && (JsString.length (text p) =? 0).

(** ** Selections *)

Module Selection.
(** A selection, as far as [getSelectedFormatter] reads it:
    [selection.start.offset] and [selection.end.offset]. *)
Record point : Type := mkPoint { offset : Z }.
Record t : Type := mk { start : point; end_ : point }.
End Selection.

(** The test of the loop of [getSelectedFormatter]. *)
Definition holdsSelection (selection : Selection.t) (f : Format) : bool :=
  (Selection.offset (Selection.start selection) >=? from f) &&
  (Selection.offset (Selection.start selection) <? to f) &&
  (Selection.offset (Selection.end_ selection) >? from f) &&
  (Selection.offset (Selection.end_ selection) <=? to f).

(** [getSelectedFormatter]: the first entry that passes the test, [null]
    ([None]) when the loop ends without one. *)
Definition getSelectedFormatter (p : Paragraph) (selection : Selection.t)
  : option Format :=
  List.find (holdsSelection selection) (formats p).

(** ** Formats of a range *)

(** The two updates of the loop body of [getFormatsForRange].  The second
    test reads [from] as the first update left it. *)
Definition clipToRange (from_ to_ : Z) (rf : Format) : Format :=
  let rf1 :=
    if (from rf <? from_) && (to rf >=? from_) then setFrom rf from_ else rf in
  if (to rf1 >? to_) && (from rf1 <=? to_) then setTo rf1 to_ else rf1.

(** [getFormatsForRange(from, to)].  The query is [{from, to, type: null}];
    without [matchType] the type of the query is read only for the list that
    is not returned, and the empty string stands for [null] here. *)
Definition getFormatsForRange (p : Paragraph) (from_ to_ : Z) : list Format :=
  let rangeFormats :=
    getFormattedRanges (formats p)
      {| type := ""; from := from_; to := to_; attrs := None |} false in
  match rangeFormats with
  | Some l =>
      List.filter (fun rf => from rf <? to rf)
                  (map (fun rf => clipToRange from_ to_ (clone rf)) l)
  | None => []
  end.

(** ** The inner DOM *)

(** A child that [updateInnerDom_] appends: a text node, or an element named
    by the type of a format, with the attributes set on it and the string
    given as its [innerText]. *)
Inductive Node : Type :=
| TextNode (data : JsString.t)
| Element (tagName : string) (attributes : list (string * string))
          (innerText : JsString.t).

(** What ends up in [this.dom]: the zero-width space written as
    [innerHTML = '&#8203;'], a string assigned to [innerText], or the children
    copied from [newDom]. *)
Inductive DomContent : Type :=
| ZeroWidthSpace
| InnerText (s : JsString.t)
| Children (nodes : list Node).

(** The DOM side of [setText]. *)
Definition setTextDom (p : Paragraph) (t : JsString.t) : DomContent :=
  let t' := match t with [] => [] | _ => t end in
  if (JsString.length t' =? 0) && negb (truthy (placeholderText p))
  then ZeroWidthSpace
  else InnerText t'.

(** The loop of [updateInnerDom_], with [formatClose] as it stands: the
    children appended and the last [formatClose]. *)
Fixpoint innerDomLoop (t : JsString.t) (formatClose : Z) (fs : list Format)
  : list Node * Z :=
  match fs with
  | [] => ([], formatClose)
  | f :: rest =>
      let formatOpen := from f in
      let before :=
        if formatOpen - formatClose >? 0
        then [TextNode (JsString.substring t formatClose formatOpen)]
        else [] in
      let formatClose' := to f in
      let formatEl :=
        Element (type f)
                (match attrs f with Some a => a | None => [] end)
                (JsString.substring t formatOpen formatClose') in
      let r := innerDomLoop t formatClose' rest in
      (before ++ formatEl :: fst r, snd r)
  end.

(** [updateInnerDom_], as the content it leaves in [this.dom]. *)
Definition updateInnerDom_ (p : Paragraph) : DomContent :=
  match formats p with
  | [] => setTextDom p (text p)
  | _ =>
      let r := innerDomLoop (text p) 0 (formats p) in
      let length := JsString.length (text p) in
      let formatClose := snd r in
      Children
        (fst r ++
         if length - formatClose >? 0
         then [TextNode (JsString.substring (text p) length formatClose)]
         else [])
  end.

(** The text a node shows. *)
Definition nodeText (n : Node) : JsString.t :=
  match n with
  | TextNode s => s
  | Element _ _ s => s
  end.

(** The text a DOM content shows; the zero-width space shows none. *)
Definition shownText (d : DomContent) : JsString.t :=
  match d with
  | ZeroWidthSpace => []
  | InnerText s => s
  | Children nodes => concat (map nodeText nodes)
  end.

(** The entries are laid out from [lo] to [n]: each starts where the one
    before it ends or later, has [from <= to], and the last ends by [n]. *)
Fixpoint laidOut (lo n : Z) (fs : list Format) : Prop :=
  match fs with
  | [] => lo <= n
  | f :: rest => lo <= from f /\ from f <= to f /\ laidOut (to f) n rest
  end.

(** ** Operation descriptors for characters and components *)

Module InsertCharsOp.
Record t : Type := mk {
  op : string;
  component : string;
  cursorOffset : Z;
  value : JsString.t;
  index : Z
}.
End InsertCharsOp.

Module RemoveCharsOp.
Record t : Type := mk {
  op : string;
  component : string;
  cursorOffset : Z;
  index : Z;
  count : Z
}.
End RemoveCharsOp.

Module InsertChars.
Record pair : Type := mk { do : InsertCharsOp.t; undo : RemoveCharsOp.t }.
End InsertChars.

Module RemoveChars.
Record pair : Type := mk { do : RemoveCharsOp.t; undo : InsertCharsOp.t }.
End RemoveChars.

Definition getInsertCharsOps (p : Paragraph) (chars : JsString.t) (index : Z)
  : list InsertChars.pair :=
  [ {| InsertChars.do :=
         {| InsertCharsOp.op := "insertChars";
            InsertCharsOp.component := name p;
            InsertCharsOp.cursorOffset := index + JsString.length chars;
            InsertCharsOp.value := chars;
            InsertCharsOp.index := index |};
       InsertChars.undo :=
         {| RemoveCharsOp.op := "removeChars";
            RemoveCharsOp.component := name p;
            RemoveCharsOp.cursorOffset := index;
            RemoveCharsOp.index := index;
            RemoveCharsOp.count := JsString.length chars |} |} ].

(** [optDirection || 0] *)
Definition orZero (o : option Z) : Z :=
  match o with
  | Some d => d
  | None => 0
  end.

Definition getRemoveCharsOps (p : Paragraph) (chars : JsString.t) (index : Z)
    (optDirection : option Z) : list RemoveChars.pair :=
  [ {| RemoveChars.do :=
         {| RemoveCharsOp.op := "removeChars";
            RemoveCharsOp.component := name p;
            RemoveCharsOp.cursorOffset := index;
            RemoveCharsOp.index := index;
            RemoveCharsOp.count := JsString.length chars |};
       RemoveChars.undo :=
         {| InsertCharsOp.op := "insertChars";
            InsertCharsOp.component := name p;
            InsertCharsOp.cursorOffset := index - orZero optDirection;
            InsertCharsOp.value := chars;
            InsertCharsOp.index := index |} |} ].

(** The region of a removal leaves the range whole: the range ends where the
    region starts or before, or starts where the region ends or after, or
    reaches past the region on both sides. *)
Definition clearOfRegion (index count : Z) (f : Format) : Prop :=
  to f <= index \/ index + count <= from f \/
  (from f < index /\ index + count < to f).

(** ** Construction, export and component operations *)

Module Params.
(** The object given to the constructor, and the objects the paragraph hands
    out in the same shape ([getJSONModel], the [attrs] of an
    [insertComponent]).  A property that is absent, or [null], is [None]. *)
Record t : Type := mk {
  name : option string;
  text : option JsString.t;
  placeholderText : option JsString.t;
  paragraphType : option ParagraphType;
  formats : option (list Format)
}.
End Params.

(** [Utils.extend(defaults, optParams).x], as the comment at the call has it:
    "Override default params with passed ones if any". *)
Definition extend {A : Type} (default : A) (passed : option A) : A :=
  match passed with
  | Some v => v
  | None => default
  end.

(** The constructor, as far as it sets [text], [placeholderText], [formats]
    and [paragraphType].
    Modelled from the spec: the name is set by [Component] (component.js is
    not given); the spec has it assigned by an identifier allocator on
    construction, and [uid] is what the allocator gives when no name is
    passed. *)
Definition newParagraph (uid : string) (optParams : Params.t) : Paragraph :=
  let p :=
    {| name := extend uid (Params.name optParams);
       text := extend [] (Params.text optParams);
       placeholderText := Params.placeholderText optParams;
       paragraphType := extend Paragraph_ (Params.paragraphType optParams);
       formats := extend [] (Params.formats optParams) |} in
  setText p (extend [] (Params.text optParams)).

(** [getJSONModel]; an array is truthy, so [formats] is always there. *)
Definition getJSONModel (p : Paragraph) : Params.t :=
  {| Params.name := Some (name p);
     Params.text := Some (text p);
     Params.placeholderText := None;
     Params.paragraphType := Some (paragraphType p);
     Params.formats := Some (formats p) |}.

Module InsertComponentOp.
Record t : Type := mk {
  op : string;
  componentClass : string;
  section : string;
  cursorOffset : option Z;
  component : string;
  index : Z;
  attrs : Params.t
}.
End InsertComponentOp.

Module DeleteComponentOp.
Record t : Type := mk { op : string; component : string }.
End DeleteComponentOp.

Module DeleteComponent.
Record pair : Type := mk { do : DeleteComponentOp.t; undo : InsertComponentOp.t }.
End DeleteComponent.

Module InsertComponent.
Record pair : Type := mk { do : InsertComponentOp.t; undo : DeleteComponentOp.t }.
End InsertComponent.

(** Where the paragraph is: [this.section.name] and [this.getIndexInSection()],
    both kept by [Component]. *)
Record Placement : Type := mkPlacement {
  sectionName : string;
  indexInSection : Z
}.

Definition getDeleteOps (p : Paragraph) (at_ : Placement) (optIndexOffset : option Z)
  : list DeleteComponent.pair :=
  [ {| DeleteComponent.do :=
         {| DeleteComponentOp.op := "deleteComponent";
            DeleteComponentOp.component := name p |};
       DeleteComponent.undo :=
         {| InsertComponentOp.op := "insertComponent";
            InsertComponentOp.componentClass := "Paragraph";
            InsertComponentOp.section := sectionName at_;
            InsertComponentOp.cursorOffset := None;
            InsertComponentOp.component := name p;
            InsertComponentOp.index := indexInSection at_ + orZero optIndexOffset;
            InsertComponentOp.attrs :=
              {| Params.name := None;
                 Params.text := Some (text p);
                 Params.placeholderText := placeholderText p;
                 Params.paragraphType := Some (paragraphType p);
                 Params.formats := Some (formats p) |} |} |} ].

Definition getInsertOps (p : Paragraph) (at_ : Placement) (index : Z)
  : list InsertComponent.pair :=
  [ {| InsertComponent.do :=
         {| InsertComponentOp.op := "insertComponent";
            InsertComponentOp.componentClass := "Paragraph";
            InsertComponentOp.section := sectionName at_;
            InsertComponentOp.cursorOffset := Some 0;
            InsertComponentOp.component := name p;
            InsertComponentOp.index := index;
            InsertComponentOp.attrs :=
              {| Params.name := None;
                 Params.text := Some (text p);
                 Params.placeholderText := None;
                 Params.paragraphType := Some (paragraphType p);
                 Params.formats := Some (formats p) |} |};
       InsertComponent.undo :=
         {| DeleteComponentOp.op := "deleteComponent";
            DeleteComponentOp.component := name p |} |} ].

(** The [attrs] of an [insertComponent] with the name of its component, as
    one object for the constructor. *)
Definition namedAttrs (o : InsertComponentOp.t) : Params.t :=
  {| Params.name := Some (InsertComponentOp.component o);
     Params.text := Params.text (InsertComponentOp.attrs o);
     Params.placeholderText := Params.placeholderText (InsertComponentOp.attrs o);
     Params.paragraphType := Params.paragraphType (InsertComponentOp.attrs o);
     Params.formats := Params.formats (InsertComponentOp.attrs o) |}.

(** ** More properties of formats *)

Definition intersectsb (format e : Format) : bool :=
  (from e <? to format) && (from format <? to e).

Definition isElement (n : Node) : bool :=
  match n with
  | Element _ _ _ => true
  | TextNode _ => false
  end.

(** The element [updateInnerDom_] makes for a format. *)
Definition elementOf (t : JsString.t) (f : Format) : Node :=
  Element (type f) (match attrs f with Some a => a | None => [] end)
          (JsString.substring t (from f) (to f)).

(** What [format] does to an entry when the format carries attributes. *)
Definition withAttrsOf (format e : Format) : Format :=
  if rangeMatches format e then setAttrs e (attrs format) else e.

(** No entry in the list is the object known by [ref]. *)
Definition lacksRef (ref : nat) (es : list Entry) : Prop :=
  Forall (fun en => fst en <> Some ref) es.

(** What the loop of [format] (no attributes, no [clear]) leaves of an entry
    [m] that the range overlaps without lying strictly inside it: nothing when
    the range is its range, the entry cut at the start of the range when they
    end together, cut at its end when they start together, and otherwise the
    entry stretched over both. *)
Definition afterFormat (format m : Format) : list Format :=
  if (to format =? to m) && (from format =? from m) then []
  else if to format =? to m then [setTo m (from format)]
  else if from format =? from m then [setFrom m (to format)]
  else [ {| type := type m;
            from := Z.min (from m) (from format);
            to := Z.max (to m) (to format);
            attrs := attrs m |} ].

(** The two pieces left of [m] by a range strictly inside it. *)
Definition leftOf (format m : Format) : Format :=
  {| type := type m; from := from m; to := from format; attrs := None |}.

Definition rightOf (format m : Format) : Format :=
  {| type := type m; from := to format; to := to m; attrs := None |}.

(** * Proofs *)

(** Case analysis on every integer test in sight. *)
Ltac zcases :=
  cbn in *;
  repeat (match goal with
          | |- context [?x >=? ?y] => destruct (Z.geb_spec x y)
          | |- context [?x >? ?y] => destruct (Z.gtb_spec x y)
          | |- context [?x <=? ?y] => destruct (Z.leb_spec x y)
          | |- context [?x <? ?y] => destruct (Z.ltb_spec x y)
          | |- context [?x =? ?y] => destruct (Z.eqb_spec x y)
          | H : context [?x >=? ?y] |- _ => destruct (Z.geb_spec x y)
          | H : context [?x >? ?y] |- _ => destruct (Z.gtb_spec x y)
          | H : context [?x <=? ?y] |- _ => destruct (Z.leb_spec x y)
          | H : context [?x <? ?y] |- _ => destruct (Z.ltb_spec x y)
          | H : context [?x =? ?y] |- _ => destruct (Z.eqb_spec x y)
          end; cbn in *).

(** * Text splices *)

Section Splice.
Implicit Types (s chars : JsString.t) (p : Paragraph) (i index count : Z).

Lemma clamp_le s i : (JsString.clamp s i <= List.length s)%nat.
Proof. unfold JsString.clamp, JsString.length. lia. Qed.

Lemma clamp_length s : JsString.clamp s (JsString.length s) = List.length s.
Proof. unfold JsString.clamp, JsString.length. lia. Qed.

(** [s.substring(0, i)] is the prefix of [i] code units. *)
Lemma substring_prefix s i :
  JsString.substring s 0 i = take (Z.to_nat i) s.
Proof.
  unfold JsString.substring.
  replace (JsString.clamp s 0) with 0%nat by (unfold JsString.clamp, JsString.length; lia).
  rewrite Nat.min_0_l, Nat.max_0_l, Nat.sub_0_r, drop_0.
  destruct (Z_le_gt_dec i (JsString.length s)) as [Hle|Hgt].
  - f_equal. unfold JsString.clamp. lia.
  - rewrite !take_ge; [done| |]; unfold JsString.clamp, JsString.length in *; lia.
Qed.

(** [s.substring(i)] is what is left after [i] code units. *)
Lemma substringFrom_suffix s i :
  JsString.substringFrom s i = drop (Z.to_nat i) s.
Proof.
  unfold JsString.substringFrom, JsString.substring.
  rewrite clamp_length.
  pose proof (clamp_le s i) as Hle.
  rewrite Nat.min_l, Nat.max_r by lia.
  rewrite take_ge by (rewrite length_drop; lia).
  destruct (Z_le_gt_dec i (JsString.length s)) as [Hi|Hi].
  - f_equal. unfold JsString.clamp. lia.
  - rewrite !drop_ge; [done| |]; unfold JsString.clamp, JsString.length in *; lia.
Qed.

Lemma setText_text p s : text (setText p s) = s.
Proof. unfold setText. simpl. by destruct s. Qed.

Lemma setText_formats p s : formats (setText p s) = formats p.
Proof. reflexivity. Qed.

Lemma insertCharactersAt_text p chars index :
  text (insertCharactersAt p chars index) =
  take (Z.to_nat index) (text p) ++ chars ++ drop (Z.to_nat index) (text p).
Proof.
  unfold insertCharactersAt. rewrite setText_text. simpl.
  unfold JsString.join2. by rewrite substring_prefix, substringFrom_suffix.
Qed.

Lemma removeCharactersAt_text p index count :
  text (removeCharactersAt p index count) =
  take (Z.to_nat index) (text p) ++ drop (Z.to_nat (index + count)) (text p).
Proof.
  unfold removeCharactersAt. rewrite setText_text. simpl.
  unfold JsString.join2. by rewrite substring_prefix, substringFrom_suffix.
Qed.

Lemma insertCharactersAt_formats p chars index :
  formats (insertCharactersAt p chars index) =
  shiftFormatsFrom_ index (JsString.length chars) (formats p).
Proof. reflexivity. Qed.

Lemma removeCharactersAt_formats p index count :
  formats (removeCharactersAt p index count) =
  shiftFormatsFrom_ index (- count) (formats p).
Proof.
  unfold removeCharactersAt. rewrite setText_formats. simpl.
  f_equal; lia.
Qed.

Lemma insertCharactersAt_length p chars index :
  JsString.length (text (insertCharactersAt p chars index)) =
  JsString.length (text p) + JsString.length chars.
Proof.
  rewrite insertCharactersAt_text. unfold JsString.length.
  rewrite !length_app.
  pose proof (f_equal (@List.length _) (take_drop (Z.to_nat index) (text p))) as H.
  rewrite length_app in H. lia.
Qed.

Lemma removeCharactersAt_length p index count :
  0 <= index -> 0 <= count -> index + count <= JsString.length (text p) ->
  JsString.length (text (removeCharactersAt p index count)) =
  JsString.length (text p) - count.
Proof.
  intros Hi Hc Hlen. rewrite removeCharactersAt_text. unfold JsString.length in *.
  rewrite length_app, length_take, length_drop. lia.
Qed.

End Splice.

(** C8: for an index within the text, inserting [chars] at [index] and then
    removing [chars.length] code units at [index] gives the text back. *)
Theorem insert_then_remove_restores_text (p : Paragraph) (chars : JsString.t) (index : Z) :
  0 <= index <= JsString.length (text p) ->
  text (removeCharactersAt (insertCharactersAt p chars index) index
          (JsString.length chars)) = text p.
Proof.
  intros [Hlo Hhi]. rewrite removeCharactersAt_text, insertCharactersAt_text.
  unfold JsString.length in *.
  set (n := Z.to_nat index).
  assert (Hn : (n <= List.length (text p))%nat) by lia.
  replace (Z.to_nat (index + Z.of_nat (List.length chars)))
    with (n + List.length chars)%nat by lia.
  assert (Hlen : List.length (take n (text p)) = n) by (rewrite length_take; lia).
  rewrite take_app_le by lia.
  rewrite take_ge by lia.
  rewrite app_assoc.
  rewrite drop_app_ge by (rewrite length_app; lia).
  rewrite length_app, Hlen.
  replace (n + List.length chars - (n + List.length chars))%nat with 0%nat by lia.
  rewrite drop_0. apply take_drop.
Qed.

Lemma insert_then_remove_restores_text_witness :
  let p := mkParagraph "p1" (JsString.of_string "hello world") None Paragraph_ [] in
  text (removeCharactersAt (insertCharactersAt p (JsString.of_string "! ") 5) 5 2)
  = JsString.of_string "hello world".
Proof.
  intros p.
  apply (insert_then_remove_restores_text p (JsString.of_string "! ") 5).
  vm_compute. split; discriminate.
Defined.

(** C10: the two splices are defined for every index and count.  An index
    past the end makes [insertCharactersAt] append; a removal that runs past
    the end keeps [text.substring(0, index)] and nothing after it; in both the
    formats are shifted with the index and count as given. *)
Theorem splice_out_of_range (p : Paragraph) (chars : JsString.t) (index count : Z) :
  (index > JsString.length (text p) ->
     text (insertCharactersAt p chars index) = text p ++ chars) /\
  (index + count > JsString.length (text p) ->
     text (removeCharactersAt p index count) = JsString.substring (text p) 0 index) /\
  formats (insertCharactersAt p chars index) =
    shiftFormatsFrom_ index (JsString.length chars) (formats p) /\
  formats (removeCharactersAt p index count) =
    shiftFormatsFrom_ index (- count) (formats p).
Proof.
  split; [|split; [|split]].
  - intros Hgt. rewrite insertCharactersAt_text. unfold JsString.length in Hgt.
    rewrite take_ge, drop_ge by lia. by rewrite app_nil_r.
  - intros Hgt. rewrite removeCharactersAt_text, substring_prefix.
    unfold JsString.length in Hgt.
    rewrite drop_ge by lia. by rewrite app_nil_r.
  - apply insertCharactersAt_formats.
  - apply removeCharactersAt_formats.
Qed.

Lemma splice_out_of_range_witness :
  let p := mkParagraph "p1" (JsString.of_string "abc") None Paragraph_
             [mkFormat "b" 0 3 None] in
  text (insertCharactersAt p (JsString.of_string "xy") 10) = JsString.of_string "abcxy" /\
  text (removeCharactersAt p 1 7) = JsString.of_string "a".
Proof.
  intros p.
  destruct (splice_out_of_range p (JsString.of_string "xy") 10 (-5)) as (Hins & _).
  destruct (splice_out_of_range p [] 1 7) as (_ & Hrem & _).
  split.
  - apply Hins. reflexivity.
  - apply Hrem. reflexivity.
Defined.

(** * Shifting formats *)

Section Shift.
Variables startIndex shift : Z.

Lemma shiftLoop_snd (i : nat) (fs : list Format) :
  snd (shiftLoop startIndex shift i fs) = map (shiftOne startIndex shift) fs.
Proof.
  revert i. induction fs as [|f fs IH]; intros i; simpl; [done|].
  by rewrite IH.
Qed.

Lemma shiftLoop_fst_nil (i : nat) (fs : list Format) :
  Forall (fun f => inShiftedRange startIndex shift f = false) fs ->
  fst (shiftLoop startIndex shift i fs) = [].
Proof.
  intros H. revert i. induction H as [|f fs Hf _ IH]; intros i; simpl; [done|].
  by rewrite Hf, IH.
Qed.

(** When nothing is marked for removal the formats are shifted in place. *)
Lemma shiftFormatsFrom_keep_all (fs : list Format) :
  Forall (fun f => inShiftedRange startIndex shift f = false) fs ->
  shiftFormatsFrom_ startIndex shift fs = map (shiftOne startIndex shift) fs.
Proof.
  intros H. unfold shiftFormatsFrom_.
  by rewrite shiftLoop_fst_nil, shiftLoop_snd.
Qed.





End Shift.

Lemma shiftOne_back (s n : Z) (f : Format) :
  0 <= n -> shiftOne s (- n) (shiftOne s n f) = f.
Proof.
  intros Hn. destruct f as [t a b x]. unfold shiftOne, setFrom, setTo.
  zcases; try lia; f_equal; lia.
Qed.

Lemma shiftOne_not_marked (s n : Z) (f : Format) :
  0 <= n -> ~ withinRegion s n f ->
  inShiftedRange s n f = false /\
  inShiftedRange s (- n) (shiftOne s n f) = false.
Proof.
  intros Hn Hout. unfold withinRegion in Hout.
  destruct f as [t a b x]. unfold inShiftedRange, shiftOne, setFrom, setTo in *.
  split; zcases; try reflexivity; lia.
Qed.

(** C9: shifting by [+n] at [s] and then by [-n] at [s] gives the list back
    when none of its ranges lies within [[s, s + n)]. *)
Theorem shift_forth_and_back (s n : Z) (fs : list Format) :
  0 <= s -> 0 < n ->
  Forall (fun f => ~ withinRegion s n f) fs ->
  shiftFormatsFrom_ s (- n) (shiftFormatsFrom_ s n fs) = fs.
Proof.
  intros _ Hn Hout.
  assert (H1 : Forall (fun f => inShiftedRange s n f = false) fs).
  { eapply Forall_impl; [exact Hout|].
    intros f Hf. apply shiftOne_not_marked; [lia|exact Hf]. }
  rewrite (shiftFormatsFrom_keep_all s n fs H1).
  rewrite shiftFormatsFrom_keep_all.
  - rewrite map_map. rewrite <- (map_id fs) at 2.
    apply map_ext. intros f. apply shiftOne_back. lia.
  - apply Forall_map. eapply Forall_impl; [exact Hout|].
    intros f Hf. simpl. apply shiftOne_not_marked; [lia|exact Hf].
Qed.

Lemma shift_forth_and_back_witness :
  let fs := [mkFormat "b" 0 5 None; mkFormat "i" 3 9 None; mkFormat "a" 7 8 None] in
  shiftFormatsFrom_ 4 (- 2) (shiftFormatsFrom_ 4 2 fs) = fs.
Proof.
  intros fs. apply (shift_forth_and_back 4 2 fs); [lia|lia|].
  repeat constructor; unfold withinRegion; simpl; lia.
Defined.

(** C2: two formats inside the removed region.  The indices to splice are
    recorded before the first splice, so the second splice misses its entry:
    [{i, 1, 2}] stays, shifted to [{i, -1, 0}]. *)
Theorem remove_two_formats_keeps_one :
  let p := mkParagraph "p1" (JsString.of_string "ab") None Paragraph_
             [mkFormat "b" 0 1 None; mkFormat "i" 1 2 None] in
  Forall (withinRegion 0 2) (formats p) /\
  formats (removeCharactersAt p 0 2) = [mkFormat "i" (-1) 0 None].
Proof.
  split; [|reflexivity].
  repeat constructor; unfold withinRegion; simpl; lia.
Qed.


(** * Operation descriptors *)



(** * Overlap queries *)

Section Query.
Variable format : Format.

Lemma matchLoop_fst (i : nat) (fs : list Format) :
  map snd (fst (matchLoop format i fs)) = List.filter (rangeMatches format) fs.
Proof.
  revert i. induction fs as [|e fs IH]; intros i; simpl; [done|].
  destruct (rangeMatches format e); simpl; by rewrite IH.
Qed.

Lemma matchLoop_snd (i : nat) (fs : list Format) :
  snd (matchLoop format i fs) =
  List.filter (fun r => sameType format (snd r)) (fst (matchLoop format i fs)).
Proof.
  revert i. induction fs as [|e fs IH]; intros i; simpl; [done|].
  destruct (rangeMatches format e); simpl; [|apply IH].
  destruct (sameType format e); by rewrite IH.
Qed.

Lemma filter_length_le {A} (P : A -> bool) (l : list A) :
  (List.length (List.filter P l) <= List.length l)%nat.
Proof. induction l as [|x l IH]; simpl; [lia|]. destruct (P x); simpl; lia. Qed.

(** Filtering keeps the length only when it keeps everything. *)
Lemma filter_length_all {A} (P : A -> bool) (l : list A) :
  (List.length (List.filter P l) =? List.length l)%nat = forallb P l.
Proof.
  induction l as [|x l IH]; simpl; [done|].
  destruct (P x); simpl; [exact IH|].
  pose proof (filter_length_le P l). apply Nat.eqb_neq. lia.
Qed.

Lemma filter_all {A} (P : A -> bool) (l : list A) :
  forallb P l = true -> List.filter P l = l.
Proof.
  induction l as [|x l IH]; simpl; [done|].
  destruct (P x); simpl; [|discriminate]. intros H. by rewrite IH.
Qed.

Lemma forallb_map_snd {A} (P : Format -> bool) (l : list (A * Format)) :
  forallb (fun r => P (snd r)) l = forallb P (map snd l).
Proof. induction l as [|x l IH]; simpl; [done|]. by rewrite IH. Qed.

(** For two non-empty ranges the four cases of the query are the
    intersection of the half-open intervals. *)
Lemma rangeMatches_intersects (e : Format) :
  from format < to format -> from e < to e ->
  rangeMatches format e = true <-> intersects format e.
Proof.
  intros Hq He. unfold rangeMatches, intersects.
  destruct format as [qt qa qb qx], e as [et ea eb ex]. cbn in *.
  split.
  - intros H. zcases; try discriminate; lia.
  - intros [H1 H2]. zcases; try reflexivity; lia.
Qed.

End Query.


(** Without [matchType] the query returns every overlapping entry. *)
Lemma getFormattedRanges_any (fs : list Format) (format : Format) :
  getFormattedRanges fs format false = Some (List.filter (rangeMatches format) fs).
Proof.
  unfold getFormattedRanges, getFormattedRefs. simpl. by rewrite matchLoop_fst.
Qed.

(** * Normalization *)

Section Normalize.

Lemma mergesInto_head (last f g : Format) :
  from g = from f -> type g = type f ->
  mergesInto last g = mergesInto last f.
Proof. unfold mergesInto. by intros -> ->. Qed.


(** The first entry that comes out of the loop is [last], up to its [to]. *)
Lemma normalizeFrom_head (last : Format) (rest : list Format) :
  exists h tl, normalizeFrom last rest = h :: tl /\
               from h = from last /\ type h = type last.
Proof.
  revert last. induction rest as [|f rest IH]; intros last; simpl; [by eauto|].
  destruct (mergesInto last f); [|by eauto].
  destruct (IH (setTo last (to f))) as (h & tl & -> & Hfrom & Htype).
  by eauto.
Qed.

Lemma normalizeFrom_noMerge (last : Format) (rest : list Format) :
  noMerge (normalizeFrom last rest).
Proof.
  revert last. induction rest as [|f rest IH]; intros last; simpl; [done|].
  destruct (mergesInto last f) eqn:E; [apply IH|].
  specialize (IH f).
  destruct (normalizeFrom_head f rest) as (h & tl & Heq & Hfrom & Htype).
  rewrite Heq in *. simpl. split; [|exact IH].
  by rewrite (mergesInto_head last f h).
Qed.

(** What [normalizeFormats_] returns has no entry left to merge. *)
Lemma normalizeFormats_noMerge (fs : list Format) :
  noMerge (normalizeFormats_ fs).
Proof. destruct fs; simpl; [done|apply normalizeFrom_noMerge]. Qed.

Lemma normalizeFrom_fixed (last : Format) (rest : list Format) :
  noMerge (last :: rest) -> normalizeFrom last rest = last :: rest.
Proof.
  revert last. induction rest as [|f rest IH]; intros last; simpl; [done|].
  intros [-> Hrest]. by rewrite IH.
Qed.

(** A list with nothing to merge is left as it is. *)
Lemma normalizeFormats_fixed (fs : list Format) :
  noMerge fs -> normalizeFormats_ fs = fs.
Proof. destruct fs; [done|apply normalizeFrom_fixed]. Qed.


(** X15: normalizing twice is normalizing once, for every list:
    [normalize(normalize(R)) == normalize(R)]. *)
Lemma normalizeFormats_idempotent (fs : list Format) :
  normalizeFormats_ (normalizeFormats_ fs) = normalizeFormats_ fs.
Proof. apply normalizeFormats_fixed, normalizeFormats_noMerge. Qed.

Lemma mergesInto_follows (last f : Format) :
  from last <= to last -> from f <= to f ->
  follows last f -> mergesInto last f = true ->
  type last = type f /\ from last <= from f /\ from f <= to last /\ to last <= to f.
Proof.
  unfold follows, mergesInto. intros Hlast Hf Hfol E.
  apply orb_true_iff in E as [E|E].
  - apply Z.gtb_lt in E. destruct Hfol as [?|(? & ? & ?)]; [exfalso; lia|].
    split; [done|lia].
  - apply andb_true_iff in E as [E1 E2].
    apply Z.eqb_eq in E1. apply String.eqb_eq in E2.
    destruct Hfol as [?|(? & ? & ?)]; (split; [done|lia]).
Qed.

Lemma covers_merged (t : string) (p : Z) (last f : Format) :
  type last = type f -> from last <= from f -> from f <= to last -> to last <= to f ->
  covers t p (setTo last (to f)) <-> covers t p last \/ covers t p f.
Proof.
  unfold covers, setTo. simpl. intros H1 H2 H3 H4. rewrite <- H1.
  split.
  - intros (Ht & Ha & Hb).
    destruct (Z_lt_le_dec p (to last)); [left|right]; (split; [done|lia]).
  - intros [(Ht & Ha & Hb)|(Ht & Ha & Hb)]; (split; [done|lia]).
Qed.

Lemma follows_merged (last f g : Format) :
  type last = type f -> from last <= from f ->
  follows f g -> follows (setTo last (to f)) g.
Proof.
  unfold follows, setTo. simpl. intros Hty Hfrom [H|(H1 & H2 & H3)]; [by left|].
  right. repeat split; [congruence|lia|lia].
Qed.

Lemma normalizeFrom_covered (last : Format) (rest : list Format) (t : string) (p : Z) :
  chained (last :: rest) ->
  covered t p (normalizeFrom last rest) <-> covered t p (last :: rest).
Proof.
  unfold covered.
  revert last. induction rest as [|f rest IH]; intros last Hch; [done|].
  destruct Hch as (Hlast & Hfol & Hrest).
  cbn [normalizeFrom clone].
  destruct (mergesInto last f) eqn:E.
  - destruct Hrest as (Hf & Hnext & Hrest').
    destruct (mergesInto_follows last f Hlast Hf Hfol E) as (Hty & Hfrom & Hmid & Hto).
    rewrite IH.
    + rewrite !Exists_cons, covers_merged by done. tauto.
    + split; [simpl; lia|]. split; [|exact Hrest'].
      destruct rest as [|g rest']; [done|]. by apply follows_merged.
  - rewrite Exists_cons, IH by exact Hrest.
    by rewrite (Exists_cons _ last).
Qed.

End Normalize.




(** * Sorting *)

Section SortFacts.
Context {A : Type} (key : A -> Format).

Lemma sortInsert_perm (x : A) (l : list A) :
  Permutation (sortInsert key x l) (x :: l).
Proof.
  induction l as [|y l IH]; simpl; [done|].
  destruct (compareFormats (key x) (key y) <=? 0); [done|].
  rewrite IH. apply perm_swap.
Qed.

(** Sorting moves entries; it neither makes nor loses any. *)
Lemma sortFormats_perm (l : list A) : Permutation (sortFormats key l) l.
Proof.
  induction l as [|x l IH]; simpl; [done|].
  by rewrite sortInsert_perm, IH.
Qed.


End SortFacts.

(** * Bounds kept by the operations *)

Section Bounds.
Variable n : Z.

Lemma shiftOne_insert (index len : Z) (f : Format) :
  0 <= len -> nonEmptyInBounds n f ->
  inShiftedRange index len f = false /\
  nonEmptyInBounds (n + len) (shiftOne index len f).
Proof.
  intros Hlen (H0 & H1 & H2).
  destruct f as [t a b x]. unfold inShiftedRange, shiftOne, nonEmptyInBounds in *.
  split; zcases; try reflexivity; lia.
Qed.


















End Bounds.

Section SortedByFrom.

Lemma compareFormats_le (a b : Format) :
  compareFormats a b <= 0 -> from a <= from b.
Proof. unfold compareFormats. destruct (Z.eqb_spec (from a - from b) 0); lia. Qed.






(** A format applied where nothing overlaps is added, and the call returns
    at the first level. *)
Lemma format__no_overlap (fuel : nat) (fs : list Format) (f : Format) :
  getFormattedRanges fs f false = Some [] ->
  format_ (S fuel) fs f false = Some (normalizeFormats_ (addNewFormatting fs f)).
Proof.
  intros H. cbn [format_ negb clone].
  unfold getFormattedRanges in H.
  assert (Hany : getFormattedRefs fs f false = Some []).
  { destruct (getFormattedRefs fs f false) as [[|r l]|]; done. }
  assert (Hty : getFormattedRefs fs f true = Some []).
  { unfold getFormattedRefs in *. injection Hany as Hany.
    rewrite matchLoop_snd, Hany. done. }
  by rewrite Hty, Hany.
Qed.

End SortedByFrom.






(** No operation compares a range with the text: [format] stores a range that
    reaches past the end of the text as it is. *)
Lemma format_takes_range_outside_text :
  let p := mkParagraph "p1" (JsString.of_string "abc") None Paragraph_ [] in
  exists p',
    format 1 p (mkFormat "b" 0 100 None) false = Some p' /\
    formats p' = [mkFormat "b" 0 100 None] /\
    JsString.length (text p') = 3.
Proof. intros p. eexists. by repeat split. Qed.

(** * Sequences of [format] calls *)

(** The call that finds the range taken by another type: it clears, applies
    again and normalizes what the second call returns. *)
Lemma format__mixed (fuel : nat) (fs : list Format) (f : Format) :
  getFormattedRefs fs f true = None ->
  isEmpty (getFormattedRefs fs f false) = false ->
  format_ (S fuel) fs f false =
  match format_ fuel fs f true with
  | Some fs1 =>
      match format_ fuel fs1 f false with
      | Some fs2 => Some (normalizeFormats_ fs2)
      | None => None
      end
  | None => None
  end.
Proof.
  intros H1 H2. cbn [format_ negb clone]. rewrite H1, H2.
  by destruct (format_ fuel fs f true).
Qed.

(** [format] does not always return.  A link over a bold range: the clearing
    call only copies the attributes onto the bold entry, the range is still
    taken by another type, and the call that follows starts over. *)
Lemma format_attrs_over_other_type_never_returns (fuel : nat) :
  let link := mkFormat "a" 0 3 (Some [("href", "x")]) in
  format_ fuel [mkFormat "b" 0 3 None] link false = None.
Proof.
  intros link.
  assert (Hloop : forall k,
            format_ k [mkFormat "b" 0 3 (Some [("href", "x")])] link false = None).
  { induction k as [|k IH]; [done|].
    rewrite format__mixed by done. destruct k as [|k]; [done|].
    replace (format_ (S k) [mkFormat "b" 0 3 (Some [("href", "x")])] link true)
      with (Some [mkFormat "b" 0 3 (Some [("href", "x")])]) by done.
    by rewrite IH. }
  destruct fuel as [|[|k]]; [done| |]; rewrite format__mixed by done; [done|].
  replace (format_ (S k) [mkFormat "b" 0 3 None] link true)
    with (Some [mkFormat "b" 0 3 (Some [("href", "x")])]) by done.
  by rewrite Hloop.
Qed.

(** C6: three calls on a paragraph without formats.  The third range spans
    the first two and shares an edge with each; both are trimmed the wrong
    way round and the list that comes out is not in the order of [from]. *)
Theorem format_sequence_unsorted (fuel : nat) :
  let p := mkParagraph "p1" (JsString.of_string "abc") None Paragraph_ [] in
  let calls := [mkFormat "b" 0 1 None; mkFormat "b" 2 3 None; mkFormat "b" 0 3 None] in
  exists p',
    applyFormats (S fuel) p calls = Some p' /\
    formats p' = [mkFormat "b" 3 1 None; mkFormat "b" 2 0 None] /\
    ~ sortedFormats (formats p').
Proof.
  intros p calls. eexists. split; [reflexivity|]. split; [reflexivity|].
  simpl. intros H. apply StronglySorted_inv in H as [_ H].
  apply Forall_cons in H as [H _]. vm_compute in H. by apply H.
Qed.

(** * Applying a format twice *)

Section LoopEntries.

Lemma leaveLoop_enterLoop (fs : list Format) : leaveLoop (enterLoop fs) = fs.
Proof.
  unfold leaveLoop, enterLoop. apply list_eq. intros i.
  rewrite list_lookup_fmap, list_lookup_imap. by destruct (fs !! i).
Qed.

Lemma indexOfRef_imap (j k : nat) (fs : list Format) :
  (k < List.length fs)%nat ->
  indexOfRef (j + k) (imap (fun i f => (Some (j + i)%nat, f)) fs) = Some k.
Proof.
  revert j k. induction fs as [|e fs IH]; intros j k Hk; simpl in *; [lia|].
  destruct k as [|k].
  - rewrite Nat.add_0_r, Nat.eqb_refl. done.
  - destruct (Nat.eqb_spec (j + 0) (j + S k)) as [?|_]; [lia|].
    rewrite (imap_ext _ (fun i f => (Some (S j + i)%nat, f))).
    + replace (j + S k)%nat with (S j + k)%nat by lia.
      by rewrite IH by lia.
    + intros i x _. simpl. do 2 f_equal. lia.
Qed.

(** An entry that was there when the loop started is found where it was, as
    long as nothing has moved. *)
Lemma indexOfRef_enterLoop (k : nat) (fs : list Format) :
  (k < List.length fs)%nat -> indexOfRef k (enterLoop fs) = Some k.
Proof. intros Hk. exact (indexOfRef_imap 0 k fs Hk). Qed.

Lemma leaveLoop_assignAt (k : nat) (v : Format) (es : list Entry) :
  leaveLoop (assignAt (Some k) v es) = <[k := v]> (leaveLoop es).
Proof. unfold leaveLoop. simpl. by rewrite list_fmap_insert. Qed.

Lemma leaveLoop_spliceAt (k : nat) (es : list Entry) :
  leaveLoop (spliceAt (Some k) es) = delete k (leaveLoop es).
Proof.
  unfold leaveLoop. simpl. revert k. induction es as [|e es IH]; intros [|k]; simpl; try done.
  by rewrite IH.
Qed.

Lemma map_sortInsert (x : Entry) (es : list Entry) :
  map snd (sortInsert snd x es) = sortInsert id (snd x) (map snd es).
Proof.
  induction es as [|y es IH]; simpl; [done|].
  unfold id. destruct (compareFormats (snd x) (snd y) <=? 0); simpl; [done|].
  by rewrite IH.
Qed.

Lemma map_sortFormats (es : list Entry) :
  map snd (sortFormats snd es) = sortFormats id (map snd es).
Proof.
  induction es as [|y l IH]; simpl; [done|].
  by rewrite map_sortInsert, IH.
Qed.

Lemma leaveLoop_addNewEntry (es : list Entry) (x : Format) :
  leaveLoop (addNewEntry es x) = addNewFormatting (leaveLoop es) x.
Proof.
  unfold leaveLoop, addNewEntry, addNewFormatting.
  by rewrite map_sortFormats, map_app.
Qed.

End LoopEntries.

Section SortSnoc.
Context {A : Type} (key : A -> Format).

Lemma sortInsert_head (x : A) (l : list A) :
  Forall (keyLe key x) l -> sortInsert key x l = x :: l.
Proof.
  intros H. destruct H as [|y l Hy _]; simpl; [done|].
  unfold keyLe in Hy. by destruct (Z.leb_spec (compareFormats (key x) (key y)) 0); [|lia].
Qed.

Lemma sortFormats_cons (y : A) (l : list A) :
  sortFormats key (y :: l) = sortInsert key y (sortFormats key l).
Proof. reflexivity. Qed.

Lemma sortFormats_snoc_after (x : A) (l : list A) :
  StronglySorted (keyLe key) l ->
  Forall (fun y => compareFormats (key y) (key x) > 0) l ->
  sortFormats key (l ++ [x]) = x :: l.
Proof.
  induction 1 as [|y l Hl IH Hy]; intros Hgt; [done|].
  apply Forall_cons in Hgt as [Hgt Hrest].
  rewrite <- app_comm_cons, sortFormats_cons, IH by done. simpl.
  destruct (Z.leb_spec (compareFormats (key y) (key x)) 0); [lia|].
  by rewrite sortInsert_head.
Qed.

(** Pushing [x] on a sorted array and sorting puts [x] after the entries that
    do not compare greater than it. *)
Lemma sortFormats_snoc (x : A) (l1 l2 : list A) :
  StronglySorted (keyLe key) (l1 ++ l2) ->
  Forall (fun y => compareFormats (key y) (key x) <= 0) l1 ->
  Forall (fun y => compareFormats (key y) (key x) > 0) l2 ->
  sortFormats key ((l1 ++ l2) ++ [x]) = l1 ++ x :: l2.
Proof.
  induction l1 as [|y l1 IH]; intros Hs Hle Hgt.
  - by apply sortFormats_snoc_after.
  - rewrite <- !app_comm_cons in *.
    apply StronglySorted_inv in Hs as [Hs Hy].
    apply Forall_cons in Hle as [Hyx Hle].
    rewrite sortFormats_cons, IH by done.
    apply sortInsert_head.
    apply Forall_app in Hy as [Hy1 Hy2].
    apply Forall_app. split; [done|]. by constructor.
Qed.

End SortSnoc.

Section Sides.
Variable format : Format.
Hypothesis Hrange : from format < to format.

(** An entry the query does not return lies on one side of the range. *)
Lemma unmatched_sides (e : Format) :
  rangeMatches format e = false -> endsBefore format e \/ startsAfter format e.
Proof.
  unfold rangeMatches, endsBefore, startsAfter.
  destruct format as [qt qa qb qx], e as [et ea eb ex]. cbn in *.
  intros H. destruct (Z_lt_le_dec ea qa); [left|right]; zcases; try discriminate; lia.
Qed.


Lemma startsAfter_unmatched (e : Format) :
  startsAfter format e -> rangeMatches format e = false.
Proof.
  unfold rangeMatches, startsAfter.
  destruct format as [qt qa qb qx], e as [et ea eb ex]. cbn in *.
  intros [H1 H2]. zcases; try reflexivity; lia.
Qed.

Lemma keyLe_from (a b : Format) : keyLe id a b -> from a <= from b.
Proof. apply compareFormats_le. Qed.

(** In a sorted list the entries before the range come first. *)
Lemma split_sides (fs : list Format) :
  sortedFormats fs ->
  Forall (fun e => rangeMatches format e = false) fs ->
  exists pre post,
    fs = pre ++ post /\
    Forall (endsBefore format) pre /\ Forall (startsAfter format) post.
Proof.
  induction 1 as [|e fs Hs IH He]; intros Hun.
  - exists [], []. by repeat constructor.
  - apply Forall_cons in Hun as [Hune Hun].
    destruct (unmatched_sides e Hune) as [Hb|Ha].
    + destruct (IH Hun) as (pre & post & -> & Hpre & Hpost).
      exists (e :: pre), post. split; [done|]. split; [by constructor|done].
    + exists [], (e :: fs). split; [done|]. split; [constructor|].
      constructor; [done|].
      rewrite Forall_forall in He, Hun. apply Forall_forall. intros g Hg.
      destruct (unmatched_sides g (Hun g Hg)) as [[Hb _]|Hag]; [|done].
      apply He, keyLe_from in Hg. destruct Ha as [Ha _]. lia.
Qed.

Lemma compare_endsBefore (e : Format) :
  endsBefore format e -> compareFormats e format <= 0.
Proof.
  intros [H _]. unfold compareFormats.
  destruct (Z.eqb_spec (from e - from format) 0); lia.
Qed.

Lemma compare_startsAfter (e : Format) :
  startsAfter format e -> compareFormats e format > 0.
Proof.
  intros [H _]. unfold compareFormats.
  destruct (Z.eqb_spec (from e - from format) 0); lia.
Qed.

(** Where nothing overlaps, [addNewFormatting] puts the format between the
    entries before its range and the entries after it. *)
Lemma addNewFormatting_between (pre post : list Format) :
  sortedFormats (pre ++ post) ->
  Forall (endsBefore format) pre -> Forall (startsAfter format) post ->
  addNewFormatting (pre ++ post) format = pre ++ format :: post.
Proof.
  intros Hs Hpre Hpost. unfold addNewFormatting. apply sortFormats_snoc.
  - exact Hs.
  - eapply Forall_impl; [exact Hpre|]. intros e. apply compare_endsBefore.
  - eapply Forall_impl; [exact Hpost|]. intros e. apply compare_startsAfter.
Qed.

End Sides.

(** [addNewFormatting] on a sorted list, by where the format belongs. *)
Lemma sortFormats_snoc_at (x : Format) (l1 l2 : list Format) :
  sortedFormats (l1 ++ l2) ->
  Forall (fun y => compareFormats y x <= 0) l1 ->
  Forall (fun y => compareFormats y x > 0) l2 ->
  addNewFormatting (l1 ++ l2) x = l1 ++ x :: l2.
Proof. apply (sortFormats_snoc id). Qed.

Section MergeShapes.





End MergeShapes.

Section OneMatch.
Variable format : Format.
Hypothesis Hattrs : attrs format = None.

Lemma matchLoop_unmatched (i : nat) (fs : list Format) :
  Forall (fun e => rangeMatches format e = false) fs ->
  matchLoop format i fs = ([], []).
Proof.
  intros H. revert i. induction H as [|e fs He _ IH]; intros i; simpl; [done|].
  by rewrite He, IH.
Qed.

Lemma matchLoop_single (i : nat) (pre post : list Format) (m : Format) :
  Forall (fun e => rangeMatches format e = false) pre ->
  Forall (fun e => rangeMatches format e = false) post ->
  rangeMatches format m = true -> type m = type format ->
  matchLoop format i (pre ++ m :: post) =
  ([((i + List.length pre)%nat, m)], [((i + List.length pre)%nat, m)]).
Proof.
  intros Hpre Hpost Hm Hty. revert i.
  induction Hpre as [|e pre He _ IH]; intros i; simpl.
  - rewrite Hm, matchLoop_unmatched by done. simpl.
    unfold sameType. rewrite Hty, String.eqb_refl, Nat.add_0_r. done.
  - rewrite He, IH. by rewrite Nat.add_succ_r.
Qed.

(** With a single overlapping entry, of the type of the format, [format]
    runs its loop once, on that entry. *)
Lemma format__single (fuel : nat) (pre post : list Format) (m : Format) :
  Forall (fun e => rangeMatches format e = false) pre ->
  Forall (fun e => rangeMatches format e = false) post ->
  rangeMatches format m = true -> type m = type format ->
  format_ (S fuel) (pre ++ m :: post) format false =
  Some (normalizeFormats_
          (leaveLoop (formatStep format false (enterLoop (pre ++ m :: post))
                        (List.length pre, m)))).
Proof.
  intros Hpre Hpost Hm Hty. cbn [format_ negb clone].
  unfold getFormattedRefs. rewrite (matchLoop_single 0) by done. by simpl.
Qed.

Lemma index_found (pre post : list Format) (m : Format) :
  indexOfRef (List.length pre) (enterLoop (pre ++ m :: post)) = Some (List.length pre).
Proof. apply indexOfRef_enterLoop. rewrite length_app. simpl. lia. Qed.

(** The same range again: the entry is removed. *)
Lemma formatStep_same_range (pre post : list Format) (m : Format) :
  to format = to m -> from format = from m ->
  leaveLoop (formatStep format false (enterLoop (pre ++ m :: post))
               (List.length pre, m)) = pre ++ post.
Proof.
  intros Hto Hfrom. unfold formatStep. cbn [fst snd clone]. rewrite Hattrs, index_found.
  rewrite Hto, Hfrom, !Z.eqb_refl. cbn [andb].
  by rewrite leaveLoop_spliceAt, leaveLoop_enterLoop, delete_middle.
Qed.

(** A range that ends with the entry and starts elsewhere: the entry is cut
    back to where the range starts. *)
Lemma formatStep_shared_end (pre post : list Format) (m : Format) :
  to format = to m -> from format <> from m ->
  leaveLoop (formatStep format false (enterLoop (pre ++ m :: post))
               (List.length pre, m)) = pre ++ setTo m (from format) :: post.
Proof.
  intros Hto Hfrom. unfold formatStep. cbn [fst snd clone]. rewrite Hattrs, index_found.
  rewrite Hto, Z.eqb_refl. apply Z.eqb_neq in Hfrom. rewrite Hfrom. cbn [andb orb].
  rewrite leaveLoop_assignAt, leaveLoop_enterLoop.
  rewrite <- (Nat.add_0_r (List.length pre)). by rewrite insert_app_r.
Qed.

(** A range that starts with the entry and ends elsewhere: the entry is cut
    back to where the range ends. *)
Lemma formatStep_shared_start (pre post : list Format) (m : Format) :
  to format <> to m -> from format = from m ->
  leaveLoop (formatStep format false (enterLoop (pre ++ m :: post))
               (List.length pre, m)) = pre ++ setFrom m (to format) :: post.
Proof.
  intros Hto Hfrom. unfold formatStep. cbn [fst snd clone]. rewrite Hattrs, index_found.
  rewrite Hfrom, Z.eqb_refl. apply Z.eqb_neq in Hto. rewrite Hto.
  rewrite !andb_false_r. cbn [andb orb].
  rewrite leaveLoop_assignAt, leaveLoop_enterLoop.
  rewrite <- (Nat.add_0_r (List.length pre)). by rewrite insert_app_r.
Qed.

(** A range strictly inside the entry: the entry is replaced by what is left
    of it on either side. *)
Lemma formatStep_inside (pre post : list Format) (m : Format) :
  to format < to m -> from m < from format ->
  leaveLoop (formatStep format false (enterLoop (pre ++ m :: post))
               (List.length pre, m)) =
  addNewFormatting
    (addNewFormatting (pre ++ post)
       {| type := type m; from := from m; to := from format; attrs := None |})
    {| type := type m; from := to format; to := to m; attrs := None |}.
Proof.
  intros Hto Hfrom. unfold formatStep. cbn [fst snd clone]. rewrite Hattrs, index_found.
  assert (E1 : (to format =? to m) = false) by (apply Z.eqb_neq; lia).
  assert (E2 : (from format =? from m) = false) by (apply Z.eqb_neq; lia).
  assert (E3 : (to format <? to m) = true) by (apply Z.ltb_lt; lia).
  assert (E4 : (from format >? from m) = true) by (apply Z.gtb_lt; lia).
  rewrite E1, E2, E3, E4, !andb_false_r. cbn [andb orb].
  by rewrite !leaveLoop_addNewEntry, leaveLoop_spliceAt, leaveLoop_enterLoop,
    delete_middle.
Qed.

End OneMatch.

Section Toggle.
Variable format : Format.
Hypothesis Hattrs : attrs format = None.
Hypothesis Hrange : from format < to format.



Lemma matches_spanning (m : Format) :
  from m <= from format -> to format <= to m -> rangeMatches format m = true.
Proof.
  unfold rangeMatches. destruct format as [qt qa qb qx], m as [mt ma mb mx].
  cbn in *. intros H1 H2. zcases; try reflexivity; lia.
Qed.





End Toggle.

Lemma unmatched_of_query (fs : list Format) (format : Format) :
  getFormattedRanges fs format false = Some [] ->
  Forall (fun e => rangeMatches format e = false) fs.
Proof.
  rewrite getFormattedRanges_any. intros [= H].
  induction fs as [|e fs IH]; [done|]. simpl in H.
  destruct (rangeMatches format e) eqn:E; [done|]. constructor; auto.
Qed.



Lemma sortedFormatsb_spec (fs : list Format) :
  sortedFormatsb fs = true <-> sortedFormats fs.
Proof.
  unfold sortedFormats. induction fs as [|a fs IH]; simpl.
  - split; [constructor|done].
  - rewrite andb_true_iff, StronglySorted_cons, IH, forallb_forall, Forall_forall.
    unfold keyLe, id. setoid_rewrite Z.leb_le. setoid_rewrite list_elem_of_In.
    tauto.
Qed.






(** * Further properties *)

(** ** Substrings *)

Section Substrings.
Implicit Types (s u v : JsString.t) (a b : Z).

Lemma substring_swap s a b : JsString.substring s a b = JsString.substring s b a.
Proof.
  unfold JsString.substring. by rewrite Nat.min_comm, Nat.max_comm.
Qed.

(** Inside the string and in order, [substring] is a slice. *)
Lemma substring_slice s a b :
  0 <= a <= b -> b <= JsString.length s ->
  JsString.substring s a b = take (Z.to_nat (b - a)) (drop (Z.to_nat a) s).
Proof.
  intros Hab Hb. unfold JsString.substring, JsString.clamp, JsString.length in *.
  rewrite Nat.min_l, Nat.max_r by lia. f_equal; [lia|]. f_equal. lia.
Qed.

Lemma substring_empty s a : JsString.substring s a a = [].
Proof.
  unfold JsString.substring. rewrite Nat.min_id, Nat.max_id, Nat.sub_diag.
  apply take_0.
Qed.

Lemma substring_all s : JsString.substring s 0 (JsString.length s) = s.
Proof.
  rewrite substring_slice by (unfold JsString.length; lia).
  rewrite Z.sub_0_r. unfold JsString.length. rewrite Nat2Z.id. simpl.
  by rewrite take_ge.
Qed.

(** Two slices that meet make one. *)
Lemma substring_app s a b c :
  0 <= a <= b -> b <= c -> c <= JsString.length s ->
  JsString.substring s a b ++ JsString.substring s b c = JsString.substring s a c.
Proof.
  intros Hab Hbc Hc. rewrite !substring_slice by lia.
  replace (Z.to_nat (c - a)) with (Z.to_nat (b - a) + Z.to_nat (c - b))%nat by lia.
  rewrite <- take_take_drop, drop_drop. do 3 f_equal. lia.
Qed.

Lemma substring_app_l u v a b :
  0 <= a <= b -> b <= JsString.length u ->
  JsString.substring (u ++ v) a b = JsString.substring u a b.
Proof.
  intros Hab Hb.
  rewrite !substring_slice by (unfold JsString.length in *; rewrite ?length_app; lia).
  unfold JsString.length in *.
  rewrite drop_app_le by lia. rewrite take_app_le; [done|].
  rewrite length_drop. lia.
Qed.

Lemma substring_app_r u v a b :
  JsString.length u <= a <= b -> b <= JsString.length (u ++ v) ->
  JsString.substring (u ++ v) a b =
  JsString.substring v (a - JsString.length u) (b - JsString.length u).
Proof.
  intros Hab Hb. unfold JsString.length in *. rewrite length_app in Hb.
  rewrite !substring_slice by (unfold JsString.length; rewrite ?length_app; lia).
  rewrite drop_app_ge by lia.
  do 2 f_equal; lia.
Qed.

Lemma length_substring s a b :
  0 <= a <= b -> b <= JsString.length s ->
  JsString.length (JsString.substring s a b) = b - a.
Proof.
  intros Hab Hb. rewrite substring_slice by done. unfold JsString.length in *.
  rewrite length_take, length_drop. lia.
Qed.

End Substrings.

(** ** The inner DOM *)

Section InnerDom.
Variable t : JsString.t.

Lemma laidOut_le (lo n : Z) (fs : list Format) : laidOut lo n fs -> lo <= n.
Proof.
  revert lo. induction fs as [|f fs IH]; intros lo; simpl; [done|].
  intros (H1 & H2 & H3). apply IH in H3. lia.
Qed.

Lemma innerDomLoop_text (lo : Z) (fs : list Format) :
  0 <= lo -> laidOut lo (JsString.length t) fs ->
  lo <= snd (innerDomLoop t lo fs) <= JsString.length t /\
  concat (map nodeText (fst (innerDomLoop t lo fs))) =
  JsString.substring t lo (snd (innerDomLoop t lo fs)).
Proof.
  revert lo. induction fs as [|f fs IH]; intros lo Hlo; simpl.
  - intros Hn. split; [lia|]. by rewrite substring_empty.
  - intros (H1 & H2 & H3). pose proof (laidOut_le _ _ _ H3) as Hto.
    destruct (IH (to f) ltac:(lia) H3) as [Hclose Htext].
    split; [lia|].
    rewrite map_app, concat_app. simpl. rewrite Htext.
    rewrite (substring_app t (from f)) by lia.
    destruct (Z.gtb_spec (from f - lo) 0) as [Hgt|Hle]; simpl.
    + rewrite app_nil_r. apply substring_app; lia.
    + by replace (from f) with lo by lia.
Qed.

Lemma innerDomLoop_elements (lo : Z) (fs : list Format) :
  List.filter isElement (fst (innerDomLoop t lo fs)) = map (elementOf t) fs.
Proof.
  revert lo. induction fs as [|f fs IH]; intros lo; simpl; [done|].
  rewrite List.filter_app. simpl. rewrite IH.
  by destruct (from f - lo >? 0).
Qed.

End InnerDom.

(** X12: with formats laid out one after the other inside the text,
    [updateInnerDom_] shows the text of the paragraph: every character once,
    in order, whether inside a format or between two. *)
Theorem updateInnerDom_shows_text (p : Paragraph) :
  laidOut 0 (JsString.length (text p)) (formats p) ->
  shownText (updateInnerDom_ p) = text p.
Proof.
  intros Hlaid. unfold updateInnerDom_.
  destruct (formats p) as [|f fs] eqn:E.
  - unfold setTextDom. replace (match text p with [] => [] | _ :: _ => text p end)
      with (text p) by by destruct (text p).
    destruct (Z.eqb_spec (JsString.length (text p)) 0) as [H0|H0]; simpl.
    + destruct (truthy (placeholderText p)); simpl; [done|].
      unfold JsString.length in H0. destruct (text p); [done|simpl in H0; lia].
    + done.
  - destruct (innerDomLoop_text (text p) 0 (f :: fs) ltac:(lia) Hlaid)
      as [Hclose Htext].
    remember (innerDomLoop (text p) 0 (f :: fs)) as r eqn:Hr. clear Hr.
    cbn [shownText]. rewrite map_app, concat_app, Htext.
    destruct (Z.gtb_spec (JsString.length (text p) - snd r) 0) as [Hgt|Hle].
    + cbn [map concat nodeText]. rewrite app_nil_r.
      rewrite (substring_swap (text p) (JsString.length (text p))).
      rewrite substring_app by lia. apply substring_all.
    + cbn [map concat]. rewrite app_nil_r.
      replace (snd r) with (JsString.length (text p)) by lia.
      apply substring_all.
Qed.

Lemma updateInnerDom_shows_text_witness :
  let p := mkParagraph "p1" (JsString.of_string "hello world") None Paragraph_
             [mkFormat "b" 0 5 None; mkFormat "i" 6 8 None] in
  shownText (updateInnerDom_ p) = JsString.of_string "hello world".
Proof.
  intros p. apply (updateInnerDom_shows_text p).
  vm_compute. repeat split; discriminate.
Defined.

(** X13: [updateInnerDom_] makes one element for every format, in the order
    of the list and whatever the ranges are: named by the type, with the
    attributes of the format and the text of its range. *)
Theorem updateInnerDom_elements (p : Paragraph) :
  formats p <> [] ->
  exists nodes,
    updateInnerDom_ p = Children nodes /\
    List.filter isElement nodes = map (elementOf (text p)) (formats p).
Proof.
  intros Hne. unfold updateInnerDom_.
  destruct (formats p) as [|f fs] eqn:E; [done|].
  eexists. split; [reflexivity|].
  rewrite List.filter_app, innerDomLoop_elements.
  destruct (_ >? 0); simpl; by rewrite app_nil_r.
Qed.

Lemma updateInnerDom_elements_witness :
  let p := mkParagraph "p1" (JsString.of_string "hello") None Paragraph_
             [mkFormat "b" 0 3 None; mkFormat "i" 2 9 None] in
  exists nodes,
    updateInnerDom_ p = Children nodes /\
    List.filter isElement nodes = map (elementOf (text p)) (formats p).
Proof. intros p. apply (updateInnerDom_elements p). discriminate. Defined.

(** ** The selected formatter *)

Lemma holdsSelection_spec (selection : Selection.t) (f : Format) :
  holdsSelection selection f = true <->
  from f <= Selection.offset (Selection.start selection) < to f /\
  from f < Selection.offset (Selection.end_ selection) <= to f.
Proof.
  unfold holdsSelection. rewrite !andb_true_iff, Z.geb_le, Z.ltb_lt, Z.gtb_lt, Z.leb_le.
  tauto.
Qed.

(** X11: [getSelectedFormatter] returns the first entry of the list whose range
    holds the selection (the start in [[from, to)], the end in [(from, to]]),
    and [null] exactly when no entry does.  For a cursor, a selection that
    starts and ends at [x], the entry returned has [from < x < to]: a cursor
    at the first position of a range is not in it. *)
Theorem getSelectedFormatter_first (p : Paragraph) (selection : Selection.t) :
  match getSelectedFormatter p selection with
  | Some f =>
      exists before after,
        formats p = before ++ f :: after /\
        holdsSelection selection f = true /\
        Forall (fun e => holdsSelection selection e = false) before
  | None => Forall (fun e => holdsSelection selection e = false) (formats p)
  end /\
  (forall x,
     match getSelectedFormatter p
             (Selection.mk (Selection.mkPoint x) (Selection.mkPoint x)) with
     | Some f => from f < x < to f
     | None => True
     end).
Proof.
  unfold getSelectedFormatter. split.
  - induction (formats p) as [|e fs IH]; simpl; [done|].
    destruct (holdsSelection selection e) eqn:E.
    + exists [], fs. by repeat split.
    + destruct (List.find (holdsSelection selection) fs) as [f|].
      * destruct IH as (before & after & -> & Hf & Hbefore).
        exists (e :: before), after. split; [done|]. split; [done|].
        by constructor.
      * by constructor.
  - intros x. destruct (List.find _ (formats p)) as [f|] eqn:Hfind; [|done].
    apply find_some in Hfind as [_ Hf].
    apply holdsSelection_spec in Hf. simpl in Hf. lia.
Qed.

(** ** Formats of a range *)

Section RangeFormats.
Variables from_ to_ : Z.

Lemma clipToRange_type (rf : Format) : type (clipToRange from_ to_ rf) = type rf.
Proof. unfold clipToRange. by repeat (destruct (_ && _); simpl). Qed.

(** Clipping moves [from] up and [to] down, never the other way. *)
Lemma clipToRange_inside (rf : Format) :
  from rf <= from (clipToRange from_ to_ rf) /\
  to (clipToRange from_ to_ rf) <= to rf.
Proof.
  destruct rf as [t a b x]. unfold clipToRange, setFrom, setTo.
  zcases; lia.
Qed.

(** An entry the query returns is cut to the part of it inside the range. *)
Lemma clipToRange_matched (rf : Format) :
  from_ <= to_ ->
  rangeMatches {| type := ""; from := from_; to := to_; attrs := None |} rf = true ->
  from (clipToRange from_ to_ rf) = Z.max (from rf) from_ /\
  to (clipToRange from_ to_ rf) = Z.min (to rf) to_.
Proof.
  intros Hle. destruct rf as [t a b x].
  unfold rangeMatches, clipToRange, setFrom, setTo.
  intros H. zcases; try discriminate; lia.
Qed.

End RangeFormats.

(** X8: for [from <= to], every format that [getFormatsForRange(from, to)]
    returns is non-empty and lies inside the range. *)
Theorem getFormatsForRange_within (p : Paragraph) (from_ to_ : Z) :
  from_ <= to_ ->
  Forall (fun f => from_ <= from f /\ from f < to f /\ to f <= to_)
         (getFormatsForRange p from_ to_).
Proof.
  intros Hle. unfold getFormatsForRange. rewrite getFormattedRanges_any.
  apply Forall_forall. intros c Hc.
  apply list_elem_of_In, filter_In in Hc as [Hc Hne].
  apply in_map_iff in Hc as (rf & <- & Hrf). apply filter_In in Hrf as [_ Hm].
  destruct (clipToRange_matched from_ to_ rf Hle Hm) as [Hfrom Hto].
  apply Z.ltb_lt in Hne. simpl in *. lia.
Qed.

Lemma getFormatsForRange_within_witness :
  let p := mkParagraph "p1" (JsString.of_string "hello world") None Paragraph_
             [mkFormat "b" 0 5 None; mkFormat "i" 6 8 None] in
  Forall (fun f => 3 <= from f /\ from f < to f /\ to f <= 7)
         (getFormatsForRange p 3 7).
Proof. intros p. apply (getFormatsForRange_within p 3 7). lia. Defined.

(** X9: inside the range, [getFormatsForRange] returns the formatting of the
    paragraph: a position of [[from, to)] carries a type through a returned
    format exactly when it carries it through a stored one. *)
Theorem getFormatsForRange_coverage (p : Paragraph) (from_ to_ : Z)
    (t : string) (x : Z) :
  from_ <= x < to_ ->
  covered t x (getFormatsForRange p from_ to_) <-> covered t x (formats p).
Proof.
  intros Hx. unfold covered, getFormatsForRange.
  rewrite getFormattedRanges_any, !Exists_exists. split.
  - intros (c & Hc & Ht & Hfrom & Hto).
    apply list_elem_of_In, filter_In in Hc as [Hc _].
    apply in_map_iff in Hc as (rf & <- & Hrf). apply filter_In in Hrf as [Hrf _].
    exists rf. split; [by apply list_elem_of_In|].
    destruct (clipToRange_inside from_ to_ rf) as [H1 H2].
    rewrite clipToRange_type in Ht. simpl in *. unfold covers. repeat split; (done || lia).
  - intros (rf & Hrf & Ht & Hfrom & Hto). apply list_elem_of_In in Hrf.
    assert (Hm : rangeMatches
                   {| type := ""; from := from_; to := to_; attrs := None |} rf = true).
    { apply rangeMatches_intersects; simpl; [lia..|].
      unfold intersects. simpl. lia. }
    destruct (clipToRange_matched from_ to_ rf ltac:(lia) Hm) as [H1 H2].
    exists (clipToRange from_ to_ rf). split.
    + apply list_elem_of_In, filter_In. split.
      * apply in_map_iff. exists rf. split; [done|]. by apply filter_In.
      * apply Z.ltb_lt. lia.
    + unfold covers. rewrite clipToRange_type. repeat split; (done || lia).
Qed.

Lemma getFormatsForRange_coverage_witness :
  let p := mkParagraph "p1" (JsString.of_string "hello world") None Paragraph_
             [mkFormat "b" 0 5 None; mkFormat "i" 6 8 None] in
  covered "b" 4 (getFormatsForRange p 3 7) <-> covered "b" 4 (formats p).
Proof. intros p. apply (getFormatsForRange_coverage p 3 7 "b" 4). lia. Defined.

(** ** Undoing splices *)

Lemma paragraph_eq (p q : Paragraph) :
  name p = name q -> text p = text q -> placeholderText p = placeholderText q ->
  paragraphType p = paragraphType q -> formats p = formats q -> p = q.
Proof. destruct p, q. simpl. by intros -> -> -> -> ->. Qed.

Lemma insert_remove_text (p : Paragraph) (chars : JsString.t) (index : Z) :
  0 <= index <= JsString.length (text p) ->
  text (removeCharactersAt (insertCharactersAt p chars index) index
          (JsString.length chars)) = text p.
Proof.
  intros [Hlo Hhi]. rewrite removeCharactersAt_text, insertCharactersAt_text.
  unfold JsString.length in *.
  replace (Z.to_nat (index + Z.of_nat (List.length chars)))
    with (Z.to_nat index + List.length chars)%nat by lia.
  rewrite take_app_le by (rewrite length_take; lia).
  rewrite take_take, Nat.min_id.
  rewrite app_assoc, drop_app_ge by (rewrite length_app, length_take; lia).
  rewrite length_app, length_take.
  replace (Z.to_nat index + List.length chars -
           (Z.to_nat index `min` List.length (text p) + List.length chars))%nat
    with 0%nat by lia.
  rewrite drop_0. apply take_drop.
Qed.

Lemma remove_insert_text (p : Paragraph) (chars : JsString.t) (index : Z) :
  0 <= index -> index + JsString.length chars <= JsString.length (text p) ->
  JsString.substring (text p) index (index + JsString.length chars) = chars ->
  text (insertCharactersAt (removeCharactersAt p index (JsString.length chars))
          chars index) = text p.
Proof.
  intros Hlo Hhi Hchars. rewrite insertCharactersAt_text, removeCharactersAt_text.
  rewrite substring_slice in Hchars by (unfold JsString.length in *; lia).
  unfold JsString.length in *.
  set (i := Z.to_nat index) in *. set (n := List.length chars) in *.
  replace (Z.to_nat (index + Z.of_nat n)) with (i + n)%nat by lia.
  replace (Z.to_nat (index + Z.of_nat n - index)) with n in Hchars by lia.
  rewrite take_app_le by (rewrite length_take; lia).
  rewrite take_take, Nat.min_id.
  rewrite drop_app_ge by (rewrite length_take; lia).
  rewrite length_take.
  replace (i - i `min` List.length (text p))%nat with 0%nat by lia.
  rewrite drop_0.
  transitivity (take i (text p) ++ take n (drop i (text p)) ++
                drop n (drop i (text p))).
  - do 2 f_equal; [done|by rewrite drop_drop].
  - by rewrite !take_drop.
Qed.

(** A non-empty range that was shifted forth by an insertion is not marked
    when it is shifted back. *)
Lemma shiftOne_forth_kept (s n : Z) (f : Format) :
  0 <= n -> from f < to f ->
  inShiftedRange s n f = false /\
  inShiftedRange s (- n) (shiftOne s n f) = false.
Proof.
  intros Hn Hf. destruct f as [t a b x].
  unfold inShiftedRange, shiftOne, setFrom, setTo in *.
  split; zcases; try reflexivity; lia.
Qed.

Lemma shift_forth_back_nonEmpty (s n : Z) (fs : list Format) :
  0 <= n -> Forall (fun f => from f < to f) fs ->
  shiftFormatsFrom_ s (- n) (shiftFormatsFrom_ s n fs) = fs.
Proof.
  intros Hn Hfs.
  rewrite (shiftFormatsFrom_keep_all s n fs).
  2:{ eapply Forall_impl; [exact Hfs|]. intros f Hf. by apply shiftOne_forth_kept. }
  rewrite shiftFormatsFrom_keep_all.
  - rewrite map_map. rewrite <- (map_id fs) at 2.
    apply map_ext. intros f. by apply shiftOne_back.
  - apply Forall_map. eapply Forall_impl; [exact Hfs|].
    intros f Hf. simpl. by apply shiftOne_forth_kept.
Qed.

(** A non-empty range that the removed region leaves whole comes back when the
    removal is followed by an insertion of as many characters. *)
Lemma shiftOne_back_forth (s n : Z) (f : Format) :
  0 <= n -> from f < to f -> clearOfRegion s n f ->
  inShiftedRange s (- n) f = false /\
  inShiftedRange s n (shiftOne s (- n) f) = false /\
  shiftOne s n (shiftOne s (- n) f) = f.
Proof.
  intros Hn Hf Hclear. destruct f as [t a b x].
  unfold inShiftedRange, shiftOne, setFrom, setTo, clearOfRegion in *.
  cbn in Hclear, Hf.
  repeat split; zcases; try reflexivity; try lia; f_equal; lia.
Qed.

Lemma shift_back_forth_clear (s n : Z) (fs : list Format) :
  0 <= n -> Forall (fun f => from f < to f /\ clearOfRegion s n f) fs ->
  shiftFormatsFrom_ s n (shiftFormatsFrom_ s (- n) fs) = fs.
Proof.
  intros Hn Hfs.
  rewrite (shiftFormatsFrom_keep_all s (- n) fs).
  2:{ eapply Forall_impl; [exact Hfs|]. intros f [Hf Hc].
      by apply shiftOne_back_forth. }
  rewrite shiftFormatsFrom_keep_all.
  - rewrite map_map. rewrite <- (map_id fs) at 2.
    apply map_ext_Forall. eapply Forall_impl; [exact Hfs|].
    intros f [Hf Hc]. by apply shiftOne_back_forth.
  - apply Forall_map. eapply Forall_impl; [exact Hfs|].
    intros f [Hf Hc]. simpl. by apply shiftOne_back_forth.
Qed.

(** X1: the undo that [getInsertCharsOps] pairs with an insertion takes the
    paragraph back.  With the index inside the text and no empty range among
    the formats, [insertCharactersAt] with the value and index of the do,
    followed by [removeCharactersAt] with the index and count of the undo,
    gives the paragraph as it was: text, formats and all. *)
Theorem insertChars_undo_restores (p : Paragraph) (chars : JsString.t) (index : Z) :
  0 <= index <= JsString.length (text p) ->
  Forall (fun f => from f < to f) (formats p) ->
  exists d u,
    getInsertCharsOps p chars index = [InsertChars.mk d u] /\
    removeCharactersAt
      (insertCharactersAt p (InsertCharsOp.value d) (InsertCharsOp.index d))
      (RemoveCharsOp.index u) (RemoveCharsOp.count u) = p.
Proof.
  intros Hindex Hfs. eexists. eexists. split; [reflexivity|]. cbn [InsertCharsOp.value
    InsertCharsOp.index RemoveCharsOp.index RemoveCharsOp.count].
  apply paragraph_eq; try reflexivity.
  - by apply insert_remove_text.
  - rewrite removeCharactersAt_formats, insertCharactersAt_formats.
    apply shift_forth_back_nonEmpty; [unfold JsString.length; lia|done].
Qed.

Lemma insertChars_undo_restores_witness :
  let p := mkParagraph "p1" (JsString.of_string "hello world") None Paragraph_
             [mkFormat "b" 0 5 None; mkFormat "i" 5 8 None] in
  exists d u,
    getInsertCharsOps p (JsString.of_string "! ") 5 = [InsertChars.mk d u] /\
    removeCharactersAt
      (insertCharactersAt p (InsertCharsOp.value d) (InsertCharsOp.index d))
      (RemoveCharsOp.index u) (RemoveCharsOp.count u) = p.
Proof.
  intros p. apply (insertChars_undo_restores p (JsString.of_string "! ") 5).
  - vm_compute. split; discriminate.
  - repeat constructor.
Defined.

(** X2: the undo that [getRemoveCharsOps] pairs with a removal puts the text
    back, when the characters given are the ones at the index.  Formats are
    another matter: the next property. *)
Theorem removeChars_undo_restores_text (p : Paragraph) (chars : JsString.t)
    (index : Z) (optDirection : option Z) :
  0 <= index -> index + JsString.length chars <= JsString.length (text p) ->
  JsString.substring (text p) index (index + JsString.length chars) = chars ->
  exists d u,
    getRemoveCharsOps p chars index optDirection = [RemoveChars.mk d u] /\
    text (insertCharactersAt
            (removeCharactersAt p (RemoveCharsOp.index d) (RemoveCharsOp.count d))
            (InsertCharsOp.value u) (InsertCharsOp.index u)) = text p.
Proof.
  intros Hlo Hhi Hchars. eexists. eexists. split; [reflexivity|].
  by apply remove_insert_text.
Qed.

Lemma removeChars_undo_restores_text_witness :
  let p := mkParagraph "p1" (JsString.of_string "hello world") None Paragraph_
             [mkFormat "b" 0 5 None] in
  exists d u,
    getRemoveCharsOps p (JsString.of_string "lo w") 3 None = [RemoveChars.mk d u] /\
    text (insertCharactersAt
            (removeCharactersAt p (RemoveCharsOp.index d) (RemoveCharsOp.count d))
            (InsertCharsOp.value u) (InsertCharsOp.index u)) = text p.
Proof.
  intros p. apply (removeChars_undo_restores_text p (JsString.of_string "lo w") 3 None).
  - lia.
  - vm_compute. discriminate.
  - reflexivity.
Defined.

(** X3: the undo of a removal gives the whole paragraph back when, besides,
    every format is non-empty and the removed region leaves it whole: it lies
    before the region, after it, or reaches past it on both sides. *)
Theorem removeChars_undo_restores (p : Paragraph) (chars : JsString.t)
    (index : Z) (optDirection : option Z) :
  0 <= index -> index + JsString.length chars <= JsString.length (text p) ->
  JsString.substring (text p) index (index + JsString.length chars) = chars ->
  Forall (fun f => from f < to f /\ clearOfRegion index (JsString.length chars) f)
         (formats p) ->
  exists d u,
    getRemoveCharsOps p chars index optDirection = [RemoveChars.mk d u] /\
    insertCharactersAt
      (removeCharactersAt p (RemoveCharsOp.index d) (RemoveCharsOp.count d))
      (InsertCharsOp.value u) (InsertCharsOp.index u) = p.
Proof.
  intros Hlo Hhi Hchars Hfs. eexists. eexists. split; [reflexivity|].
  cbn [InsertCharsOp.value InsertCharsOp.index RemoveCharsOp.index RemoveCharsOp.count].
  apply paragraph_eq; try reflexivity.
  - by apply remove_insert_text.
  - rewrite insertCharactersAt_formats, removeCharactersAt_formats.
    apply shift_back_forth_clear; [unfold JsString.length; lia|done].
Qed.

Lemma removeChars_undo_restores_witness :
  let p := mkParagraph "p1" (JsString.of_string "hello world") None Paragraph_
             [mkFormat "b" 0 2 None; mkFormat "i" 2 9 None; mkFormat "a" 8 11 None] in
  exists d u,
    getRemoveCharsOps p (JsString.of_string "lo w") 3 None = [RemoveChars.mk d u] /\
    insertCharactersAt
      (removeCharactersAt p (RemoveCharsOp.index d) (RemoveCharsOp.count d))
      (InsertCharsOp.value u) (InsertCharsOp.index u) = p.
Proof.
  intros p. apply (removeChars_undo_restores p (JsString.of_string "lo w") 3 None).
  - lia.
  - vm_compute. discriminate.
  - reflexivity.
  - unfold clearOfRegion. change (JsString.length (JsString.of_string "lo w")) with 4.
    repeat (apply Forall_cons_2; [simpl; lia|]). apply Forall_nil_2.
Defined.

(** ** What the formats format, across a splice *)

Section AroundSplice.
Variables u c v : JsString.t.

Lemma length_nonneg (s : JsString.t) : 0 <= JsString.length s.
Proof. unfold JsString.length. lia. Qed.

Lemma length_app_Z (s s' : JsString.t) :
  JsString.length (s ++ s') = JsString.length s + JsString.length s'.
Proof. unfold JsString.length. rewrite length_app. lia. Qed.

Lemma substring_before (a b : Z) :
  0 <= a <= b -> b <= JsString.length u ->
  JsString.substring (u ++ c ++ v) a b = JsString.substring (u ++ v) a b.
Proof. intros Hab Hb. by rewrite !substring_app_l. Qed.

Lemma substring_after (a b : Z) :
  JsString.length u <= a <= b -> b <= JsString.length (u ++ v) ->
  JsString.substring (u ++ c ++ v) (a + JsString.length c) (b + JsString.length c) =
  JsString.substring (u ++ v) a b.
Proof.
  intros Hab Hb. pose proof (length_nonneg u). pose proof (length_nonneg c).
  rewrite length_app_Z in Hb.
  rewrite (substring_app_r u v) by (rewrite ?length_app_Z; lia).
  rewrite app_assoc, substring_app_r by (rewrite ?length_app_Z; lia).
  rewrite length_app_Z. f_equal; lia.
Qed.

Lemma substring_inserted :
  JsString.substring (u ++ c ++ v) (JsString.length u)
                     (JsString.length u + JsString.length c) = c.
Proof.
  pose proof (length_nonneg u). pose proof (length_nonneg c).
  pose proof (length_nonneg v).
  rewrite substring_app_r by (rewrite ?length_app_Z; lia).
  rewrite substring_app_l by lia.
  replace (JsString.length u - JsString.length u) with 0 by lia.
  replace (JsString.length u + JsString.length c - JsString.length u)
    with (JsString.length c) by lia.
  apply substring_all.
Qed.

Lemma substring_around (a b : Z) :
  0 <= a <= JsString.length u -> JsString.length u <= b ->
  b <= JsString.length (u ++ v) ->
  JsString.substring (u ++ c ++ v) a (b + JsString.length c) =
  JsString.substring (u ++ v) a (JsString.length u) ++ c ++
  JsString.substring (u ++ v) (JsString.length u) b.
Proof.
  intros Ha Hb Hlen. pose proof (length_nonneg c). pose proof (length_nonneg v).
  rewrite length_app_Z in Hlen.
  rewrite <- (substring_app (u ++ c ++ v) a (JsString.length u))
    by (rewrite ?length_app_Z; lia).
  rewrite <- (substring_app (u ++ c ++ v) (JsString.length u)
                (JsString.length u + JsString.length c))
    by (rewrite ?length_app_Z; lia).
  rewrite substring_inserted, substring_before by lia.
  rewrite <- (substring_after (JsString.length u) b)
    by (rewrite ?length_app_Z; lia).
  done.
Qed.

End AroundSplice.

Lemma text_split (s : JsString.t) (index : Z) :
  0 <= index <= JsString.length s ->
  JsString.length (take (Z.to_nat index) s) = index /\
  take (Z.to_nat index) s ++ drop (Z.to_nat index) s = s.
Proof.
  intros H. unfold JsString.length in *. rewrite length_take, take_drop.
  split; [lia|done].
Qed.

(** X4: an insertion leaves every format on the characters it was on.  With
    the index inside the text and every range non-empty and inside the text,
    no entry is dropped, types and attributes stay, and the characters in the
    range of an entry after the call are the characters in its range before;
    only a range with the index strictly inside it has the new characters
    too, at the index. *)
Theorem insertCharactersAt_keeps_formatted (p : Paragraph) (chars : JsString.t)
    (index : Z) :
  0 <= index <= JsString.length (text p) ->
  Forall (nonEmptyInBounds (JsString.length (text p))) (formats p) ->
  Forall2
    (fun f f' =>
       type f' = type f /\ attrs f' = attrs f /\
       JsString.substring (text (insertCharactersAt p chars index)) (from f') (to f') =
       if (from f <? index) && (index <? to f)
       then JsString.substring (text p) (from f) index ++ chars ++
            JsString.substring (text p) index (to f)
       else JsString.substring (text p) (from f) (to f))
    (formats p) (formats (insertCharactersAt p chars index)).
Proof.
  intros Hindex Hfs.
  rewrite insertCharactersAt_formats, insertCharactersAt_text.
  rewrite shiftFormatsFrom_keep_all.
  2:{ eapply Forall_impl; [exact Hfs|]. intros f Hf.
      by apply (shiftOne_insert (JsString.length (text p)));
        [apply length_nonneg|]. }
  destruct (text_split (text p) index Hindex) as [Hlen Hsplit].
  set (u := take (Z.to_nat index) (text p)) in *.
  set (v := drop (Z.to_nat index) (text p)) in *.
  rewrite <- Hsplit in Hfs |- *. rewrite <- Hlen. clear Hsplit.
  apply Forall2_fmap_r, Forall_Forall2_diag.
  eapply Forall_impl; [exact Hfs|]. intros f (H0 & H1 & H2).
  pose proof (length_nonneg chars) as Hc.
  destruct f as [t a b x]. unfold shiftOne, setFrom, setTo. cbn in *.
  rewrite length_app_Z in H2.
  clearbody u v. zcases; try lia.
  all: split; [done|]; split; [done|].
  all: first [ apply substring_around; rewrite ?length_app_Z; lia
             | apply substring_before; lia
             | apply substring_after; rewrite ?length_app_Z; lia ].
Qed.

Lemma insertCharactersAt_keeps_formatted_witness :
  let p := mkParagraph "p1" (JsString.of_string "hello world") None Paragraph_
             [mkFormat "b" 0 5 None; mkFormat "i" 3 8 None; mkFormat "a" 6 11 None] in
  Forall2
    (fun f f' =>
       type f' = type f /\ attrs f' = attrs f /\
       JsString.substring (text (insertCharactersAt p (JsString.of_string "! ") 5))
                          (from f') (to f') =
       if (from f <? 5) && (5 <? to f)
       then JsString.substring (text p) (from f) 5 ++ JsString.of_string "! " ++
            JsString.substring (text p) 5 (to f)
       else JsString.substring (text p) (from f) (to f))
    (formats p) (formats (insertCharactersAt p (JsString.of_string "! ") 5)).
Proof.
  intros p. apply (insertCharactersAt_keeps_formatted p (JsString.of_string "! ") 5).
  - vm_compute. split; discriminate.
  - change (JsString.length (text p)) with 11. unfold nonEmptyInBounds.
    repeat (apply Forall_cons_2; [simpl; lia|]). apply Forall_nil_2.
Defined.

(** X5: a removal leaves every format it does not cut on the characters it
    was on.  With the region inside the text and every range non-empty,
    inside the text and left whole by the region, no entry is dropped, types
    and attributes stay, and the characters in the range of an entry after
    the call are the ones in its range before, less the removed ones when the
    range reaches past the region on both sides. *)
Theorem removeCharactersAt_keeps_formatted (p : Paragraph) (index count : Z) :
  0 <= index -> 0 <= count -> index + count <= JsString.length (text p) ->
  Forall (fun f => nonEmptyInBounds (JsString.length (text p)) f /\
                   clearOfRegion index count f) (formats p) ->
  Forall2
    (fun f f' =>
       type f' = type f /\ attrs f' = attrs f /\
       JsString.substring (text (removeCharactersAt p index count)) (from f') (to f') =
       if (from f <? index) && (index + count <? to f)
       then JsString.substring (text p) (from f) index ++
            JsString.substring (text p) (index + count) (to f)
       else JsString.substring (text p) (from f) (to f))
    (formats p) (formats (removeCharactersAt p index count)).
Proof.
  intros Hindex Hcount Hlen Hfs.
  rewrite removeCharactersAt_formats, removeCharactersAt_text.
  rewrite shiftFormatsFrom_keep_all.
  2:{ eapply Forall_impl; [exact Hfs|]. intros f [(H0 & H1 & H2) Hc].
      by apply shiftOne_back_forth. }
  destruct (text_split (text p) index ltac:(lia)) as [Hu Hsplit].
  set (u := take (Z.to_nat index) (text p)) in *.
  destruct (text_split (drop (Z.to_nat index) (text p)) count) as [Hc Hsplit'].
  { unfold JsString.length in *. rewrite length_drop. lia. }
  rewrite drop_drop in Hsplit'.
  replace (Z.to_nat index + Z.to_nat count)%nat with (Z.to_nat (index + count))
    in Hsplit' by lia.
  set (c := take (Z.to_nat count) (drop (Z.to_nat index) (text p))) in *.
  set (v := drop (Z.to_nat (index + count)) (text p)) in *.
  rewrite <- Hsplit' in Hsplit. rewrite <- Hsplit in Hfs |- *.
  rewrite <- Hu, <- Hc. clear Hsplit Hsplit'.
  apply Forall2_fmap_r, Forall_Forall2_diag.
  eapply Forall_impl; [exact Hfs|]. intros f [(H0 & H1 & H2) Hclear].
  pose proof (length_nonneg v) as Hv.
  destruct f as [t a b x]. unfold shiftOne, setFrom, setTo, clearOfRegion in *.
  cbn in *. rewrite !length_app_Z in H2.
  clearbody u c v. zcases; try lia.
  all: split; [done|]; split; [done|].
  all: repeat match goal with
              | |- context [?n + - ?m] => replace (n + - m) with (n - m) by lia
              end.
  all: first
         [ symmetry; apply substring_before; lia
         | rewrite <- (substring_after u c v) by (rewrite ?length_app_Z; lia);
           f_equal; lia
         | rewrite <- (substring_app (u ++ v) a (JsString.length u))
             by (rewrite ?length_app_Z; lia);
           rewrite <- (substring_before u c v) by lia;
           rewrite <- (substring_after u c v (JsString.length u)
                         (b - JsString.length c))
             by (rewrite ?length_app_Z; lia);
           do 2 f_equal; lia ].
Qed.

Lemma removeCharactersAt_keeps_formatted_witness :
  let p := mkParagraph "p1" (JsString.of_string "hello world") None Paragraph_
             [mkFormat "b" 0 2 None; mkFormat "i" 2 9 None; mkFormat "a" 8 11 None] in
  Forall2
    (fun f f' =>
       type f' = type f /\ attrs f' = attrs f /\
       JsString.substring (text (removeCharactersAt p 3 4)) (from f') (to f') =
       if (from f <? 3) && (3 + 4 <? to f)
       then JsString.substring (text p) (from f) 3 ++
            JsString.substring (text p) (3 + 4) (to f)
       else JsString.substring (text p) (from f) (to f))
    (formats p) (formats (removeCharactersAt p 3 4)).
Proof.
  intros p. apply (removeCharactersAt_keeps_formatted p 3 4).
  - lia.
  - lia.
  - vm_compute. discriminate.
  - change (JsString.length (text p)) with 11.
    unfold nonEmptyInBounds, clearOfRegion.
    repeat (apply Forall_cons_2; [simpl; lia|]). apply Forall_nil_2.
Defined.

(** ** Lengths *)

(** X6: [getLength] after a splice.  An insertion adds the length of the
    characters at every index, in the text or not.  A removal with a count
    that is not negative never makes the text longer, and takes exactly
    [count] characters when the region is inside the text. *)
Theorem getLength_after_splice (p : Paragraph) (chars : JsString.t) (index count : Z) :
  getLength (insertCharactersAt p chars index) = getLength p + JsString.length chars /\
  (0 <= count -> getLength (removeCharactersAt p index count) <= getLength p) /\
  (0 <= index -> 0 <= count -> index + count <= getLength p ->
   getLength (removeCharactersAt p index count) = getLength p - count).
Proof.
  unfold getLength. split; [apply insertCharactersAt_length|]. split.
  - intros Hc. rewrite removeCharactersAt_text. unfold JsString.length.
    rewrite length_app, length_take, length_drop. lia.
  - intros. by apply removeCharactersAt_length.
Qed.

Lemma getLength_after_splice_witness :
  let p := mkParagraph "p1" (JsString.of_string "hello") None Paragraph_ [] in
  getLength (removeCharactersAt p 3 9) <= getLength p /\
  getLength (removeCharactersAt p 1 2) = getLength p - 2.
Proof.
  intros p.
  destruct (getLength_after_splice p [] 3 9) as (_ & Hle & _).
  destruct (getLength_after_splice p [] 1 2) as (_ & _ & Heq).
  split; [apply Hle; lia|apply Heq; [lia|lia|by vm_compute]].
Defined.

(** ** What a shift never does *)

Lemma spliceAll_map (g : Format -> Format) (toRemove : list nat) (fs : list Format) :
  spliceAll toRemove (map g fs) =
  map g (fold_left (fun acc i => delete i acc) toRemove fs).
Proof.
  unfold spliceAll. revert fs. induction toRemove as [|i rm IH]; intros fs; simpl; [done|].
  rewrite <- IH. f_equal. unfold fmap, list_fmap. revert i.
  induction fs as [|e fs IHfs]; intros [|i]; simpl; try done. by rewrite <- IHfs.
Qed.

Lemma fold_delete_sublist (toRemove : list nat) (fs : list Format) :
  sublist (fold_left (fun acc i => delete i acc) toRemove fs) fs.
Proof.
  revert fs. induction toRemove as [|i rm IH]; intros fs; simpl; [done|].
  etransitivity; [apply IH|apply sublist_delete].
Qed.

(** X7: [shiftFormatsFrom_] only moves ends and drops entries.  What it
    returns is the shifted image of some of the entries, in their order:
    it adds none, reorders none, and changes neither type nor attributes. *)
Theorem shiftFormatsFrom_sublist (startIndex shift : Z) (fs : list Format) :
  exists kept,
    sublist kept fs /\
    shiftFormatsFrom_ startIndex shift fs = map (shiftOne startIndex shift) kept /\
    Forall2 (fun f f' => type f' = type f /\ attrs f' = attrs f)
            kept (shiftFormatsFrom_ startIndex shift fs).
Proof.
  unfold shiftFormatsFrom_. rewrite shiftLoop_snd.
  change (spliceAll ?rm (map ?g fs)) with (spliceAll rm (map g fs)).
  rewrite spliceAll_map.
  eexists. split; [apply fold_delete_sublist|]. split; [done|].
  apply Forall2_fmap_r, Forall_Forall2_diag, Forall_forall.
  intros [t a b x] _. unfold shiftOne, setFrom, setTo. cbn.
  by repeat (destruct (_ >=? _) || destruct (_ >? _); cbn).
Qed.

(** ** Placeholders *)

(** X21: a paragraph into which characters were inserted is no placeholder,
    and a paragraph emptied by removing all its characters is one exactly when
    it has placeholder text. *)
Theorem isPlaceholder_after_splice (p : Paragraph) (chars : JsString.t) (index : Z) :
  (chars <> [] -> isPlaceholder (insertCharactersAt p chars index) = false) /\
  isPlaceholder (removeCharactersAt p 0 (getLength p)) = truthy (placeholderText p).
Proof.
  unfold isPlaceholder, getLength. split.
  - intros Hne. rewrite insertCharactersAt_length. apply andb_false_iff. right.
    apply Z.eqb_neq. unfold JsString.length. destruct chars; [done|simpl; lia].
  - rewrite removeCharactersAt_text. unfold JsString.length.
    rewrite Z.add_0_l, Nat2Z.id, drop_all. simpl.
    change (placeholderText (removeCharactersAt p 0 (Z.of_nat (List.length (text p)))))
      with (placeholderText p).
    apply andb_true_r.
Qed.

Lemma isPlaceholder_after_splice_witness :
  let p := mkParagraph "p1" [] (Some (JsString.of_string "Title")) MainHeader [] in
  isPlaceholder (insertCharactersAt p (JsString.of_string "a") 0) = false.
Proof.
  intros p. apply (isPlaceholder_after_splice p (JsString.of_string "a") 0).
  discriminate.
Defined.

(** ** The order of [addNewFormatting] *)

Section Comparator.

Lemma ltb_lt (a b : string) : String.ltb a b = true <-> String_as_OT.lt a b.
Proof.
  unfold String.ltb. rewrite <- String_as_OT.cmp_lt.
  change String_as_OT.cmp with String.compare.
  destruct (String.compare a b); split; (done || discriminate).
Qed.

Lemma string_total (a b : string) :
  String_as_OT.lt a b \/ a = b \/ String_as_OT.lt b a.
Proof.
  destruct (String.compare a b) eqn:E.
  - right. left. by apply String_as_OT.cmp_eq.
  - left. by apply String_as_OT.cmp_lt.
  - right. right. apply String_as_OT.cmp_lt.
    change String_as_OT.cmp with String.compare.
    rewrite String.compare_antisym, E. done.
Qed.

Lemma string_lt_irrefl (a : string) : ~ String_as_OT.lt a a.
Proof. intros H. by apply String_as_OT.lt_not_eq in H. Qed.

(** The comparator in the terms of the two orders it reads. *)
Lemma compareFormats_le_iff (a b : Format) :
  compareFormats a b <= 0 <->
  from a < from b \/ (from a = from b /\ ~ String_as_OT.lt (type b) (type a)).
Proof.
  unfold compareFormats.
  destruct (Z.eqb_spec (from a - from b) 0) as [H0|H0]; [|lia].
  destruct (String.ltb (type b) (type a)) eqn:E1.
  - apply ltb_lt in E1. split; [lia|]. intros [?|[_ Hn]]; [lia|done].
  - assert (Hn : ~ String_as_OT.lt (type b) (type a)).
    { intros H. apply ltb_lt in H. congruence. }
    split; [intros _; right; split; [lia|done]|intros _].
    destruct (String.ltb (type a) (type b)); lia.
Qed.

Lemma keyLe_trans (a b c : Format) :
  keyLe id a b -> keyLe id b c -> keyLe id a c.
Proof.
  unfold keyLe, id. rewrite !compareFormats_le_iff.
  intros [Hab|[Hab Hab']] [Hbc|[Hbc Hbc']]; try (left; lia).
  right. split; [lia|]. intros Hca.
  destruct (string_total (type a) (type b)) as [H|[H|H]]; [| |done].
  - destruct (string_total (type b) (type c)) as [H'|[H'|H']]; [| |done].
    + apply (string_lt_irrefl (type a)).
      eapply String_as_OT.lt_trans; [exact H|].
      eapply String_as_OT.lt_trans; [exact H'|exact Hca].
    + rewrite H' in H. apply (string_lt_irrefl (type a)).
      eapply String_as_OT.lt_trans; [exact H|exact Hca].
  - rewrite H in Hca. done.
Qed.

Lemma keyLe_total (a b : Format) : keyLe id a b \/ keyLe id b a.
Proof.
  unfold keyLe, id. rewrite !compareFormats_le_iff.
  destruct (Z.lt_trichotomy (from a) (from b)) as [H|[H|H]]; [by left; left| |by right; left].
  destruct (string_total (type a) (type b)) as [H'|[H'|H']].
  - left. right. split; [done|]. intros Hn.
    apply (string_lt_irrefl (type a)). eapply String_as_OT.lt_trans; eauto.
  - left. right. split; [done|]. rewrite H'. apply string_lt_irrefl.
  - right. right. split; [done|]. intros Hn.
    apply (string_lt_irrefl (type a)). eapply String_as_OT.lt_trans; eauto.
Qed.

Lemma sortInsert_sorted (x : Format) (l : list Format) :
  sortedFormats l -> sortedFormats (sortInsert id x l).
Proof.
  unfold sortedFormats. induction 1 as [|y l Hl IH Hy]; simpl; [by repeat constructor|].
  unfold id at 1 2.
  destruct (Z.leb_spec (compareFormats x y) 0) as [Hle|Hgt].
  - constructor; [by constructor|]. constructor; [exact Hle|].
    eapply Forall_impl; [exact Hy|]. intros z Hz. by apply (keyLe_trans x y z).
  - constructor; [exact IH|]. rewrite sortInsert_perm. constructor; [|exact Hy].
    destruct (keyLe_total x y) as [H|H]; [unfold keyLe, id in H; lia|done].
Qed.

Lemma sortFormats_sorted (l : list Format) : sortedFormats (sortFormats id l).
Proof.
  induction l as [|x l IH]; [constructor|]. by apply sortInsert_sorted.
Qed.

End Comparator.

(** X14: whatever the list was, after [addNewFormatting] it is sorted by [from]
    and then by [type], and it holds the entries it held and the new one,
    each as often as before.  (The comparator is a total preorder, so the
    result does not depend on the sorting algorithm beyond its being
    stable.) *)
Theorem addNewFormatting_sorted (fs : list Format) (f : Format) :
  sortedFormats (addNewFormatting fs f) /\
  Permutation (addNewFormatting fs f) (f :: fs).
Proof.
  unfold addNewFormatting. split; [apply sortFormats_sorted|].
  rewrite sortFormats_perm. by rewrite Permutation_app_comm.
Qed.

(** ** Queries on non-empty ranges *)

(** X10: for a non-empty query range and non-empty stored ranges,
    [getFormattedRanges] without [matchType] returns, in the order of the
    list, exactly the entries whose half-open range shares a position with the
    range of the query; entries that only touch it are not returned. *)
Theorem getFormattedRanges_intersecting (fs : list Format) (format : Format) :
  from format < to format ->
  Forall (fun e => from e < to e) fs ->
  getFormattedRanges fs format false = Some (List.filter (intersectsb format) fs).
Proof.
  intros Hq Hfs. rewrite getFormattedRanges_any. f_equal.
  induction Hfs as [|e fs He _ IH]; simpl; [done|].
  rewrite IH. replace (rangeMatches format e) with (intersectsb format e); [done|].
  apply eq_true_iff_eq. rewrite rangeMatches_intersects by done.
  unfold intersectsb, intersects. by rewrite andb_true_iff, !Z.ltb_lt.
Qed.

Lemma getFormattedRanges_intersecting_witness :
  getFormattedRanges [mkFormat "b" 0 3 None; mkFormat "i" 2 6 None; mkFormat "b" 5 9 None]
                     (mkFormat "a" 3 5 None) false =
  Some [mkFormat "i" 2 6 None].
Proof.
  apply (getFormattedRanges_intersecting
           [mkFormat "b" 0 3 None; mkFormat "i" 2 6 None; mkFormat "b" 5 9 None]
           (mkFormat "a" 3 5 None)).
  - simpl. lia.
  - repeat (apply Forall_cons_2; [simpl; lia|]). apply Forall_nil_2.
Defined.

(** ** Export and construction *)

(** X22: a paragraph constructed from what [getJSONModel] gives has the name,
    text, type and formats of the paragraph, and no placeholder text: the
    export does not carry it.  Exporting it again gives the same object. *)
Theorem getJSONModel_round_trip (uid : string) (p : Paragraph) :
  let q := newParagraph uid (getJSONModel p) in
  name q = name p /\ text q = text p /\ paragraphType q = paragraphType p /\
  formats q = formats p /\ placeholderText q = None /\
  getJSONModel q = getJSONModel p.
Proof.
  intros q. subst q. destruct p as [n t ph ty fs].
  unfold newParagraph, getJSONModel, setText, withText, extend. cbn.
  by destruct t.
Qed.

(** X23: the undo of [getDeleteOps] holds the whole paragraph: constructed from
    its [attrs] under the name of its component, the paragraph is back as it
    was.  The do of [getInsertOps] holds less: the paragraph comes back
    without its placeholder text. *)
Theorem component_ops_rebuild (uid : string) (p : Paragraph) (at_ : Placement)
    (optIndexOffset : option Z) (index : Z) :
  (exists d u,
     getDeleteOps p at_ optIndexOffset = [DeleteComponent.mk d u] /\
     newParagraph uid (namedAttrs u) = p) /\
  (exists d u,
     getInsertOps p at_ index = [InsertComponent.mk d u] /\
     let q := newParagraph uid (namedAttrs d) in
     name q = name p /\ text q = text p /\ paragraphType q = paragraphType p /\
     formats q = formats p /\ placeholderText q = None).
Proof.
  destruct p as [n t ph ty fs].
  split; eexists; eexists; (split; [reflexivity|]);
    unfold newParagraph, namedAttrs, setText, withText, extend; cbn;
    by destruct t.
Qed.

(** ** A format with attributes *)

Section WithAttrs.
Variables (format : Format) (a : list (string * string)).
Hypothesis Hattrs : attrs format = Some a.

Lemma indexOfRef_after (ref : nat) (pre rest : list Entry) (e : Format) :
  lacksRef ref pre ->
  indexOfRef ref (pre ++ (Some ref, e) :: rest) = Some (List.length pre).
Proof.
  induction 1 as [|[[r|] x] pre Hx _ IH]; simpl.
  - by rewrite Nat.eqb_refl.
  - destruct (Nat.eqb_spec r ref) as [->|_]; [done|]. by rewrite IH.
  - by rewrite IH.
Qed.

Lemma lacksRef_snoc (k : nat) (pre : list Entry) (en : Entry) :
  (forall j, (k <= j)%nat -> lacksRef j pre) ->
  (forall j, (S k <= j)%nat -> fst en <> Some j) ->
  forall j, (S k <= j)%nat -> lacksRef j (pre ++ [en]).
Proof.
  intros Hpre Hen j Hj. apply Forall_app. split; [apply Hpre; lia|].
  constructor; [by apply Hen|constructor].
Qed.

(** The loop of [format] for a format with attributes: every entry the query
    returned gets the attributes, in place; nothing else changes. *)
Lemma formatLoop_attrs (clear : bool) (fs : list Format) (k : nat) (pre : list Entry) :
  List.length pre = k ->
  (forall j, (k <= j)%nat -> lacksRef j pre) ->
  leaveLoop (fold_left (formatStep format clear) (fst (matchLoop format k fs))
               (pre ++ imap (fun i e => (Some (k + i)%nat, e)) fs)) =
  leaveLoop pre ++ map (withAttrsOf format) fs.
Proof.
  revert k pre. induction fs as [|e fs IH]; intros k pre Hlen Hpre.
  - simpl. by rewrite !app_nil_r.
  - cbn [imap matchLoop].
    rewrite (imap_ext _ (fun i e => (Some (S k + i)%nat, e)))
      by (intros i x _; simpl; do 2 f_equal; lia).
    rewrite Nat.add_0_r. unfold withAttrsOf at 1. cbn [map].
    destruct (rangeMatches format e) eqn:E.
    + cbn [fst fold_left]. unfold formatStep at 2. cbn [fst snd clone].
      rewrite Hattrs, indexOfRef_after by (apply Hpre; lia).
      cbn [assignAt]. rewrite <- (Nat.add_0_r (List.length pre)) at 1.
      rewrite insert_app_r. cbn [insert list_insert].
      rewrite (cons_middle _ pre), app_assoc.
      rewrite IH.
      * unfold leaveLoop, withAttrsOf. rewrite map_app, ?Hattrs. cbn [map snd].
        by rewrite <- app_assoc.
      * rewrite length_app. simpl. lia.
      * apply lacksRef_snoc; [done|]. by intros j _.
    + rewrite (cons_middle _ pre), app_assoc.
      rewrite IH.
      * unfold leaveLoop. rewrite map_app. cbn [map snd]. by rewrite <- app_assoc.
      * rewrite length_app. simpl. lia.
      * apply lacksRef_snoc; [done|]. intros j Hj [= ->]. lia.
Qed.

Lemma formatLoop_sets_attrs (clear : bool) (fs : list Format) :
  formatLoop format clear fs (fst (matchLoop format 0 fs)) =
  map (withAttrsOf format) fs.
Proof.
  unfold formatLoop, enterLoop.
  exact (formatLoop_attrs clear fs 0 [] eq_refl (fun _ _ => Forall_nil_2 _)).
Qed.

Lemma withAttrsOf_range (e : Format) :
  type (withAttrsOf format e) = type e /\
  from (withAttrsOf format e) = from e /\ to (withAttrsOf format e) = to e.
Proof. unfold withAttrsOf. by destruct (rangeMatches format e). Qed.

Lemma rangeMatches_withAttrsOf (e : Format) :
  rangeMatches format (withAttrsOf format e) = rangeMatches format e /\
  sameType format (withAttrsOf format e) = sameType format e.
Proof.
  destruct (withAttrsOf_range e) as (Ht & Hf & Hto).
  unfold rangeMatches, sameType. by rewrite Ht, Hf, Hto.
Qed.

(** The query counts the same entries after the attributes were set. *)
Lemma matchLoop_withAttrsOf (i : nat) (fs : list Format) :
  List.length (fst (matchLoop format i (map (withAttrsOf format) fs))) =
    List.length (fst (matchLoop format i fs)) /\
  List.length (snd (matchLoop format i (map (withAttrsOf format) fs))) =
    List.length (snd (matchLoop format i fs)).
Proof.
  revert i. induction fs as [|e fs IH]; intros i; [done|].
  cbn [map matchLoop]. destruct (rangeMatches_withAttrsOf e) as [-> ->].
  destruct (IH (S i)) as [IH1 IH2].
  destruct (rangeMatches format e); [|done].
  destruct (sameType format e); simpl; by rewrite ?IH1, ?IH2.
Qed.

Lemma mixed_refs (fs : list Format) :
  getFormattedRefs fs format true = None ->
  exists r refs, fst (matchLoop format 0 fs) = r :: refs.
Proof.
  unfold getFormattedRefs. rewrite matchLoop_snd.
  destruct (fst (matchLoop format 0 fs)) as [|r refs]; [done|eauto].
Qed.

Lemma mixed_withAttrsOf (fs : list Format) :
  getFormattedRefs fs format true = None ->
  getFormattedRefs (map (withAttrsOf format) fs) format true = None.
Proof.
  unfold getFormattedRefs.
  destruct (matchLoop_withAttrsOf 0 fs) as [-> ->].
  by destruct (_ =? _)%nat.
Qed.

(** The clearing call of a format with attributes, on a range something is
    on: it returns the list with the attributes set. *)
Lemma format__clear_attrs (fuel : nat) (fs : list Format) (r : nat * Format)
    (refs : list (nat * Format)) :
  fst (matchLoop format 0 fs) = r :: refs ->
  format_ (S fuel) fs format true = Some (map (withAttrsOf format) fs).
Proof.
  intros Hrefs. cbn [format_ negb clone]. unfold getFormattedRefs.
  rewrite Hrefs, <- Hrefs. by rewrite formatLoop_sets_attrs.
Qed.

Lemma format__mixed_attrs_none (fuel : nat) (fs : list Format) :
  getFormattedRefs fs format true = None ->
  format_ fuel fs format false = None.
Proof.
  revert fs. induction fuel as [|fuel IH]; intros fs Hmixed; [done|].
  destruct (mixed_refs fs Hmixed) as (r & refs & Hrefs).
  rewrite format__mixed; [|done|].
  2:{ unfold getFormattedRefs. by rewrite Hrefs. }
  destruct fuel as [|fuel]; [done|].
  rewrite (format__clear_attrs fuel fs r refs Hrefs).
  rewrite IH; [done|]. by apply mixed_withAttrsOf.
Qed.

End WithAttrs.

(** X19: [format] of a format that carries attributes, on a range where the
    entries are all of its type and there is at least one: every entry the
    range overlaps gets the attributes of the format, no range changes, and
    the list is normalized.  (The format itself is not added.) *)
Theorem format_sets_attrs (fuel : nat) (fs : list Format) (f : Format)
    (a : list (string * string)) :
  attrs f = Some a ->
  List.filter (rangeMatches f) fs <> [] ->
  forallb (sameType f) (List.filter (rangeMatches f) fs) = true ->
  format_ (S fuel) fs f false =
  Some (normalizeFormats_ (map (withAttrsOf f) fs)).
Proof.
  intros Hattrs Hsome Hall. cbn [format_ negb clone].
  assert (Hrefs : getFormattedRefs fs f true = Some (fst (matchLoop f 0 fs))).
  { unfold getFormattedRefs. rewrite matchLoop_snd, filter_length_all.
    rewrite forallb_map_snd, matchLoop_fst, Hall.
    rewrite filter_all; [done|]. by rewrite forallb_map_snd, matchLoop_fst. }
  rewrite Hrefs.
  destruct (fst (matchLoop f 0 fs)) as [|r refs] eqn:E.
  - exfalso. apply Hsome. by rewrite <- (matchLoop_fst f 0), E.
  - by rewrite <- E, (formatLoop_sets_attrs f a Hattrs).
Qed.

Lemma format_sets_attrs_witness :
  format_ 1 [mkFormat "a" 0 3 None; mkFormat "b" 3 5 None]
          (mkFormat "a" 1 2 (Some [("href", "x")])) false =
  Some [mkFormat "a" 0 3 (Some [("href", "x")]); mkFormat "b" 3 5 None].
Proof.
  apply (format_sets_attrs 0 [mkFormat "a" 0 3 None; mkFormat "b" 3 5 None]
           (mkFormat "a" 1 2 (Some [("href", "x")])) [("href", "x")]).
  - reflexivity.
  - discriminate.
  - reflexivity.
Defined.

(** X20: [format] of a format that carries attributes does not return when its
    range overlaps an entry of another type.  The clearing call sets the
    attributes and leaves every range and type as it was, so the call that
    follows finds what this one found, at every depth. *)
Theorem format_attrs_mixed_never_returns (fuel : nat) (fs : list Format) (f : Format)
    (a : list (string * string)) :
  attrs f = Some a ->
  getFormattedRanges fs f true = None ->
  format_ fuel fs f false = None.
Proof.
  intros Hattrs Hmixed. apply (format__mixed_attrs_none f a Hattrs).
  unfold getFormattedRanges in Hmixed.
  by destruct (getFormattedRefs fs f true).
Qed.

Lemma format_attrs_mixed_never_returns_witness :
  format_ 50 [mkFormat "b" 0 3 None; mkFormat "i" 4 6 None]
          (mkFormat "a" 2 5 (Some [("href", "x")])) false = None.
Proof.
  apply (format_attrs_mixed_never_returns 50
           [mkFormat "b" 0 3 None; mkFormat "i" 4 6 None]
           (mkFormat "a" 2 5 (Some [("href", "x")])) [("href", "x")]);
    reflexivity.
Defined.

(** ** A format over a single entry of its type *)

Section SingleEntry.
Variable format : Format.
Hypothesis Hattrs : attrs format = None.

(** Neither edge shared and the range not strictly inside: the entry is
    stretched over both. *)
Lemma formatStep_partial (pre post : list Format) (m : Format) :
  to format <> to m -> from format <> from m ->
  ~ (to format < to m /\ from m < from format) ->
  leaveLoop (formatStep format false (enterLoop (pre ++ m :: post))
               (List.length pre, m)) =
  pre ++ {| type := type m;
            from := Z.min (from m) (from format);
            to := Z.max (to m) (to format);
            attrs := attrs m |} :: post.
Proof.
  intros Hto Hfrom Hin. unfold formatStep. cbn [fst snd clone].
  rewrite Hattrs, index_found.
  apply Z.eqb_neq in Hto, Hfrom. rewrite Hto, Hfrom, !andb_false_r. cbn [andb orb].
  replace ((to format <? to m) && (from format >? from m)) with false.
  2:{ symmetry. apply andb_false_iff.
      destruct (Z.ltb_spec (to format) (to m)); [|by left].
      destruct (Z.gtb_spec (from format) (from m)); [lia|by right]. }
  cbn [negb]. rewrite leaveLoop_assignAt, leaveLoop_enterLoop.
  rewrite <- (Nat.add_0_r (List.length pre)). by rewrite insert_app_r.
Qed.

Lemma formatStep_afterFormat (pre post : list Format) (m : Format) :
  ~ (to format < to m /\ from m < from format) ->
  leaveLoop (formatStep format false (enterLoop (pre ++ m :: post))
               (List.length pre, m)) =
  pre ++ afterFormat format m ++ post.
Proof.
  intros Hin. unfold afterFormat.
  destruct (Z.eqb_spec (to format) (to m)) as [Hto|Hto];
    destruct (Z.eqb_spec (from format) (from m)) as [Hfrom|Hfrom]; cbn [andb app].
  - by apply formatStep_same_range.
  - by apply formatStep_shared_end.
  - by apply formatStep_shared_start.
  - by apply formatStep_partial.
Qed.

End SingleEntry.

(** X17: [format] without attributes on a range that overlaps one entry only,
    of its own type, and does not lie strictly inside that entry.  The entry
    is removed when the range is its range, cut back to the start of the range
    when the two end together, cut back to its end when they start together,
    and otherwise stretched over both; the other entries stay, and the list
    is normalized.  (When the range shares an edge with the entry and
    reaches past its other edge, the cut leaves the entry with [to] before
    [from].) *)
Theorem format_single_entry (fuel : nat) (pre post : list Format) (m f : Format) :
  attrs f = None -> type m = type f ->
  rangeMatches f m = true ->
  Forall (fun e => rangeMatches f e = false) pre ->
  Forall (fun e => rangeMatches f e = false) post ->
  ~ (to f < to m /\ from m < from f) ->
  format_ (S fuel) (pre ++ m :: post) f false =
  Some (normalizeFormats_ (pre ++ afterFormat f m ++ post)).
Proof.
  intros Hattrs Hty Hm Hpre Hpost Hin.
  rewrite format__single by done.
  by rewrite formatStep_afterFormat.
Qed.

Lemma format_single_entry_witness :
  format_ 1 ([mkFormat "i" 0 1 None] ++ mkFormat "b" 2 6 None :: [mkFormat "i" 9 10 None])
          (mkFormat "b" 4 8 None) false =
  Some [mkFormat "i" 0 1 None; mkFormat "b" 2 8 None; mkFormat "i" 9 10 None].
Proof.
  apply (format_single_entry 0 [mkFormat "i" 0 1 None] [mkFormat "i" 9 10 None]
           (mkFormat "b" 2 6 None) (mkFormat "b" 4 8 None)).
  - reflexivity.
  - reflexivity.
  - reflexivity.
  - by repeat constructor.
  - by repeat constructor.
  - simpl. lia.
Defined.

(** X18: [format] without attributes on a range strictly inside the one entry
    it overlaps, of its own type, in a sorted list whose later entries start
    where that entry ends or after: the entry is replaced, in place, by the
    piece before the range and the piece after it.  The pieces are new
    objects without attributes: attributes of the entry are not carried
    over. *)
Theorem format_inside_entry (fuel : nat) (pre post : list Format) (m f : Format) :
  attrs f = None -> type m = type f ->
  from m < from f -> from f < to f -> to f < to m ->
  sortedFormats (pre ++ m :: post) ->
  Forall (fun e => rangeMatches f e = false) pre ->
  Forall (fun e => to m <= from e) post ->
  format_ (S fuel) (pre ++ m :: post) f false =
  Some (normalizeFormats_ (pre ++ leftOf f m :: rightOf f m :: post)).
Proof.
  intros Hattrs Hty Hfrom Hrange Hto Hsorted Hpre Hpost.
  assert (Hpost' : Forall (fun e => rangeMatches f e = false) post).
  { eapply Forall_impl; [exact Hpost|]. intros e He.
    apply (startsAfter_unmatched f Hrange). unfold startsAfter. simpl in He. lia. }
  rewrite format__single; [|done|done| |done].
  2:{ apply matches_spanning; (done || lia). }
  rewrite formatStep_inside by (done || lia).
  fold (leftOf f m). fold (rightOf f m).
  apply StronglySorted_app in Hsorted as (Hcross & Hspre & Hsm).
  apply StronglySorted_cons in Hsm as (Hm & Hspost).
  assert (Hpre_from : Forall (fun e => from e < from f) pre).
  { apply Forall_forall. intros e He. rewrite Forall_forall in Hpre.
    destruct (unmatched_sides f Hrange e (Hpre e He)) as [[H _]|[H _]]; [done|].
    assert (Hle : keyLe id e m) by (apply Hcross; [done|by left]).
    apply keyLe_from in Hle. lia. }
  rewrite sortFormats_snoc_at; cycle 1.
  { apply StronglySorted_app_2; [|done..].
    intros x1 x2 H1 H2. apply Hcross; [done|by right]. }
  { apply Forall_forall. intros y Hy. apply (Hcross y m); [done|by left]. }
  { eapply Forall_impl; [exact Hpost|]. intros y Hy. simpl in Hy.
    unfold compareFormats, leftOf. simpl.
    destruct (Z.eqb_spec (from y - from m) 0); lia. }
  replace (pre ++ leftOf f m :: post) with ((pre ++ [leftOf f m]) ++ post)
    by by rewrite <- app_assoc.
  rewrite sortFormats_snoc_at; cycle 1.
  { apply StronglySorted_app_2.
    - intros x1 x2 H1 H2. apply elem_of_app in H1 as [H1|H1].
      + apply Hcross; [done|by right].
      + apply list_elem_of_singleton in H1 as ->.
        rewrite Forall_forall in Hm. apply (Hm x2 H2).
    - apply StronglySorted_app_2; [|done|repeat constructor].
      intros x1 x2 H1 H2. apply list_elem_of_singleton in H2 as ->.
      apply (Hcross x1 m); [done|by left].
    - done. }
  { apply Forall_app. split.
    - eapply Forall_impl; [exact Hpre_from|]. intros y Hy. simpl in Hy.
      unfold compareFormats, rightOf. simpl.
      destruct (Z.eqb_spec (from y - to f) 0); lia.
    - constructor; [|done]. unfold compareFormats, rightOf, leftOf. simpl.
      destruct (Z.eqb_spec (from m - to f) 0); lia. }
  { eapply Forall_impl; [exact Hpost|]. intros y Hy. simpl in Hy.
    unfold compareFormats, rightOf. simpl.
    destruct (Z.eqb_spec (from y - to f) 0); lia. }
  by rewrite <- app_assoc.
Qed.

Lemma format_inside_entry_witness :
  format_ 1 ([mkFormat "i" 0 1 None] ++
             mkFormat "a" 2 9 (Some [("href", "x")]) :: [mkFormat "i" 9 10 None])
          (mkFormat "a" 4 6 None) false =
  Some [mkFormat "i" 0 1 None; mkFormat "a" 2 4 None; mkFormat "a" 6 9 None;
        mkFormat "i" 9 10 None].
Proof.
  apply (format_inside_entry 0 [mkFormat "i" 0 1 None] [mkFormat "i" 9 10 None]
           (mkFormat "a" 2 9 (Some [("href", "x")])) (mkFormat "a" 4 6 None)).
  - reflexivity.
  - reflexivity.
  - simpl; lia.
  - simpl; lia.
  - simpl; lia.
  - by apply sortedFormatsb_spec.
  - by repeat constructor.
  - repeat (apply Forall_cons_2; [simpl; lia|]). apply Forall_nil_2.
Defined.

(** ** A format where nothing overlaps *)

Section Adding.

Lemma keyLe_setTo (x y : Format) (v : Z) : keyLe id x y -> keyLe id x (setTo y v).
Proof. done. Qed.

Lemma normalizeFrom_Forall (P : Format -> Prop) (last : Format) (rest : list Format) :
  (forall y v, P y -> P (setTo y v)) ->
  Forall P (last :: rest) -> Forall P (normalizeFrom last rest).
Proof.
  intros HP. revert last. induction rest as [|f rest IH]; intros last H; simpl; [done|].
  apply Forall_cons in H as [Hlast H]. pose proof H as Hrest.
  apply Forall_cons in H as [Hf H].
  destruct (mergesInto last f).
  - apply IH. constructor; [by apply HP|done].
  - constructor; [done|]. by apply IH.
Qed.

(** Normalization keeps the order: it changes no [from] and no [type]. *)
Lemma normalizeFrom_sorted (last : Format) (rest : list Format) :
  sortedFormats (last :: rest) -> sortedFormats (normalizeFrom last rest).
Proof.
  unfold sortedFormats. revert last.
  induction rest as [|f rest IH]; intros last Hs; simpl; [done|].
  apply StronglySorted_cons in Hs as [Hlast Hs].
  apply Forall_cons in Hlast as [Hlf Hlast].
  destruct (mergesInto last f).
  - apply IH. apply StronglySorted_cons in Hs as [_ Hs].
    apply StronglySorted_cons. split; [exact Hlast|exact Hs].
  - apply StronglySorted_cons. split; [|by apply IH].
    apply normalizeFrom_Forall; [intros y v; apply keyLe_setTo|].
    by constructor.
Qed.

Lemma normalizeFormats_sorted (fs : list Format) :
  sortedFormats fs -> sortedFormats (normalizeFormats_ fs).
Proof. destruct fs; [done|apply normalizeFrom_sorted]. Qed.

Lemma chained_between (format : Format) (pre post : list Format) :
  from format <= to format ->
  chained (pre ++ post) ->
  Forall (endsBefore format) pre -> Forall (startsAfter format) post ->
  chained (pre ++ format :: post).
Proof.
  intros Hf Hch Hpre Hpost. induction Hpre as [|a pre Ha Hpre IH].
  - cbn [app] in *. split; [done|]. split; [|done].
    destruct Hpost as [|n post [Hn _] _]; [done|]. by left.
  - cbn [app chained] in *. destruct Hch as (Ha' & Hnext & Hch).
    split; [done|]. split; [|by apply IH].
    destruct pre as [|b pre']; [|done]. cbn [app]. left. by destruct Ha.
Qed.

Lemma covered_between (t : string) (x : Z) (format : Format) (pre post : list Format) :
  covered t x (pre ++ format :: post) <->
  covered t x (pre ++ post) \/ covers t x format.
Proof.
  unfold covered. rewrite !Exists_app, Exists_cons. tauto.
Qed.

End Adding.

(** X16: [format] of a non-empty range that no entry overlaps, on a sorted list
    whose entries follow one another, adds the range and nothing else: the
    call returns at the first level, a position carries a type afterwards
    exactly when it carried it before or the new format puts it there, and
    the list is again sorted with no entry left to merge. *)
Theorem format_adds_range (fuel : nat) (fs : list Format) (f : Format) :
  from f < to f ->
  sortedFormats fs -> chained fs ->
  getFormattedRanges fs f false = Some [] ->
  exists fs',
    format_ (S fuel) fs f false = Some fs' /\
    (forall t x, covered t x fs' <-> covered t x fs \/ covers t x f) /\
    sortedFormats fs' /\ noMerge fs'.
Proof.
  intros Hrange Hsorted Hch Hfree.
  rewrite format__no_overlap by done. eexists. split; [reflexivity|].
  apply unmatched_of_query in Hfree.
  destruct (split_sides f Hrange fs Hsorted Hfree) as (pre & post & -> & Hpre & Hpost).
  split; [|split].
  - intros t x. rewrite addNewFormatting_between by done.
    rewrite <- covered_between.
    assert (Hch' : chained (pre ++ f :: post)) by (apply chained_between; (done || lia)).
    destruct (pre ++ f :: post) as [|a l]; [done|].
    by apply normalizeFrom_covered.
  - apply normalizeFormats_sorted, sortFormats_sorted.
  - apply normalizeFormats_noMerge.
Qed.

Lemma format_adds_range_witness :
  exists fs',
    format_ 1 [mkFormat "b" 0 3 None; mkFormat "i" 6 8 None]
            (mkFormat "b" 3 5 None) false = Some fs' /\
    (forall t x, covered t x fs' <->
                 covered t x [mkFormat "b" 0 3 None; mkFormat "i" 6 8 None] \/
                 covers t x (mkFormat "b" 3 5 None)) /\
    sortedFormats fs' /\ noMerge fs'.
Proof.
  apply (format_adds_range 0 [mkFormat "b" 0 3 None; mkFormat "i" 6 8 None]
           (mkFormat "b" 3 5 None)).
  - simpl. lia.
  - by apply sortedFormatsb_spec.
  - unfold chained, follows. simpl. lia.
  - reflexivity.
Defined.
